(** * Voxelization of surfaces and implicit functions (cinolib)

    A shallow embedding of [src/include/cinolib/voxelize.cpp] (both
    overloads of [voxelize]) and of [from_hexahedra_to_general_polyhedra]
    from [src/meshes/hexmesh.h], with the properties of the voxel grid,
    of the exterior flood fill and of the hexahedra conversion.

    Conventions.
    - [double] values are IEEE 754 binary64 numbers, taken from the
      specification of floating-point arithmetic of the Standard Library
      ([SpecFloat], precision 53, maximal exponent 1024).
    - [uint] indices into the classification buffer are natural numbers;
      the buffer [int *voxels] is a list read with [!!] and written with
      [<[ _ := _ ]>].  A list update out of range does nothing, whereas
      the source would write outside the allocation: the tasks of the
      parallel loops run for the indices below [size] only, and the
      flood reads and writes at indices below [size] only
      ([voxel_n6_in_bounds], [flood_inv_lt]).
    - [g.voxels], [g.dim], [g.len], [g.bbox] are the fields of a record
      that every pass receives and returns. *)

From Stdlib Require Import ZArith QArith Qround Lia Bool.
From Stdlib Require Import Floats.SpecFloat.
From stdpp Require Import base tactics option list relations sorting gmap.

Local Open Scope nat_scope.

(** ** Voxel tags and the voxel grid *)

(** Modelled from the spec: [voxelize.h], which declares the tags and
    [VoxelGrid], is not part of the sources at hand.  The classification
    of a voxel is a closed enumeration of four tags; a grid owns its
    bounding volume, its edge length, its three dimensions and the
    classification buffer. *)
Inductive voxel_tag : Set :=
| VOXEL_UNKNOWN
| VOXEL_BOUNDARY
| VOXEL_INSIDE
| VOXEL_OUTSIDE.

#[global] Instance voxel_tag_eq_dec : EqDecision voxel_tag.
Proof. solve_decision. Defined.

Definition double : Set := spec_float.
Definition vec3d : Set := (double * double * double)%type.
Definition vec3u : Set := (nat * nat * nat)%type.

Record AABB : Set := mkAABB { aabb_min : vec3d; aabb_max : vec3d }.

Record VoxelGrid : Set := mkVoxelGrid
  { bbox : AABB;
    len : double;
    dim : vec3u;
    voxels : list voxel_tag }.

(** [g.voxels[i] = t] *)
Definition set_voxel (g : VoxelGrid) (i : nat) (t : voxel_tag) : VoxelGrid :=
  {| bbox := bbox g; len := len g; dim := dim g;
     voxels := <[i := t]> (voxels g) |}.

Definition grid_size (d : vec3u) : nat :=
  let '(nx, ny, nz) := d in nx * ny * nz.

(** ** Linear indices *)

(** Modelled from the spec: [cinolib/serialize_index.h] is not part of the
    sources at hand.  The spec fixes the layout
    [index = i*(dim_y*dim_z) + j*dim_z + k], with [k] varying fastest;
    [deserialize_3D_index] is its inverse by division and remainder. *)
Definition serialize_3D_index (i j k nj nk : nat) : nat :=
  i * (nj * nk) + j * nk + k.

Definition deserialize_3D_index (index nj nk : nat) : vec3u :=
  (index / (nj * nk), (index / nk) mod nj, index mod nk).

Definition in_grid (d : vec3u) (ijk : vec3u) : Prop :=
  let '(nx, ny, nz) := d in
  let '(i, j, k) := ijk in
  i < nx ∧ j < ny ∧ k < nz.

Definition encode (d : vec3u) (ijk : vec3u) : nat :=
  let '(_, ny, nz) := d in
  let '(i, j, k) := ijk in
  serialize_3D_index i j k ny nz.

Definition decode (d : vec3u) (index : nat) : vec3u :=
  let '(_, ny, nz) := d in
  deserialize_3D_index index ny nz.

(** Modelled from the spec: [voxel_n6] is declared in [voxelize.h], which
    is not part of the sources at hand.  It lists the linear indices of
    the face neighbours of voxel [ijk], one step along each axis in each
    direction, leaving out those that fall outside the grid. *)
Definition voxel_n6 (d : vec3u) (ijk : vec3u) : list nat :=
  let '(nx, ny, nz) := d in
  let '(i, j, k) := ijk in
  (if decide (0 < i) then [serialize_3D_index (i - 1) j k ny nz] else []) ++
  (if decide (i + 1 < nx) then [serialize_3D_index (i + 1) j k ny nz] else []) ++
  (if decide (0 < j) then [serialize_3D_index i (j - 1) k ny nz] else []) ++
  (if decide (j + 1 < ny) then [serialize_3D_index i (j + 1) k ny nz] else []) ++
  (if decide (0 < k) then [serialize_3D_index i j (k - 1) ny nz] else []) ++
  (if decide (k + 1 < nz) then [serialize_3D_index i j (k + 1) ny nz] else []).

(** Two voxels of the grid share a face: their coordinates differ by one
    along exactly one axis. *)
Definition face_adjacent (d : vec3u) (a b : nat) : Prop :=
  a < grid_size d ∧ b < grid_size d ∧
  let '(i, j, k) := decode d a in
  let '(i', j', k') := decode d b in
  (j = j' ∧ k = k' ∧ (i = i' + 1 ∨ i' = i + 1)) ∨
  (i = i' ∧ k = k' ∧ (j = j' + 1 ∨ j' = j + 1)) ∨
  (i = i' ∧ j = j' ∧ (k = k' + 1 ∨ k' = k + 1)).

(** ** Double arithmetic *)

Definition prec : Z := 53.
Definition emax : Z := 1024.

Definition fadd : double → double → double := SFadd prec emax.
Definition fsub : double → double → double := SFsub prec emax.
Definition fmul : double → double → double := SFmul prec emax.
Definition fdiv : double → double → double := SFdiv prec emax.

(** [a < b], [a == b], [a <= b] on doubles: all false when an operand is NaN *)
Definition flt : double → double → bool := SFltb.
Definition feq : double → double → bool := SFeqb.

Definition fzero : double := S754_zero false.

(** conversion of an integer to [double] (exact below [2^53]) *)
Definition of_int (z : Z) : double := binary_normalize prec emax z 0 false.

(** the rational number a finite double stands for *)
Definition SF2Q (x : double) : Q :=
  match x with
  | S754_finite s m e => inject_Z (cond_Zopp s (Zpos m)) * Qpower 2 e
  | _ => 0
  end.

Definition is_finite (x : double) : bool :=
  match x with
  | S754_zero _ | S754_finite _ _ _ => true
  | _ => false
  end.

Definition int_min : Z := - 2 ^ 31.
Definition int_max : Z := 2 ^ 31 - 1.

(** [int(ceil(x))].  [ceil] of a finite double is the integer [⌈x⌉],
    which is a double again, and the conversion to [int] of an integral
    double inside the range of [int] is that integer.  For NaN, the
    infinities and values outside the range of [int] the conversion is
    undefined in C++: [None]. *)
Definition int_ceil (x : double) : option Z :=
  if is_finite x then
    let z := Qceiling (SF2Q x) in
    if decide (int_min ≤ z ≤ int_max)%Z then Some z else None
  else None.

(** ** Bounding boxes *)

(** Modelled from the spec: [AABB] ([cinolib/geometry/aabb.h]) is not part
    of the sources at hand.  A bounding volume is an axis-aligned box with
    a min and a max corner; [delta] is its extent per axis and
    [max_entry] the largest of the three components, found with [<] as
    [std::max_element] does. *)
Definition delta_x (b : AABB) : double := fsub (aabb_max b).1.1 (aabb_min b).1.1.
Definition delta_y (b : AABB) : double := fsub (aabb_max b).1.2 (aabb_min b).1.2.
Definition delta_z (b : AABB) : double := fsub (aabb_max b).2 (aabb_min b).2.
Definition delta (b : AABB) : vec3d := (delta_x b, delta_y b, delta_z b).

Definition max_entry (v : vec3d) : double :=
  let '(x, y, z) := v in
  let m := if flt x y then y else x in
  if flt m z then z else m.

(** Modelled from the spec: [voxel_bbox] and [voxel_corner_xyz] are
    declared in [voxelize.h], which is not part of the sources at hand.
    The box of voxel [(i,j,k)] spans [origin + (i,j,k)*len] to
    [origin + (i+1,j+1,k+1)*len]; its corner number [off] takes the upper
    bound on the axes whose bit is set in [off]. *)
Definition voxel_point (g : VoxelGrid) (ijk : vec3u) : vec3d :=
  let '(i, j, k) := ijk in
  let '(ox, oy, oz) := aabb_min (bbox g) in
  (fadd ox (fmul (of_int (Z.of_nat i)) (len g)),
   fadd oy (fmul (of_int (Z.of_nat j)) (len g)),
   fadd oz (fmul (of_int (Z.of_nat k)) (len g))).

Definition voxel_bbox (g : VoxelGrid) (ijk : vec3u) : AABB :=
  let '(i, j, k) := ijk in
  {| aabb_min := voxel_point g (i, j, k);
     aabb_max := voxel_point g (i + 1, j + 1, k + 1) |}.

Definition voxel_corner_xyz (g : VoxelGrid) (ijk : vec3u) (off : nat) : vec3d :=
  let '(i, j, k) := ijk in
  voxel_point g (i + off mod 2, j + (off / 2) mod 2, k + (off / 4) mod 2).

(** ** Grid geometry (lines 52-57 and 131-136) *)

(** What a run of [voxelize] comes to.  [Undefined] is a run the model
    does not follow: a conversion [int(ceil(..))] that is undefined, a
    negative voxel count, or a number of voxels that does not fit a
    32-bit [int].  [AssertFailure] is the [assert] of the flood loop. *)
Inductive outcome (A : Type) : Type :=
| Done (a : A)
| Undefined
| AssertFailure
| OutOfFuel.
Arguments Done {A} a.
Arguments Undefined {A}.
Arguments AssertFailure {A}.
Arguments OutOfFuel {A}.

Definition edge_length (b : AABB) (max_voxels_per_side : Z) : double :=
  fdiv (max_entry (delta b)) (of_int max_voxels_per_side).

Definition axis_count (extent l : double) : option Z :=
  int_ceil (fdiv extent l).

Definition grid_dim (b : AABB) (l : double) : option vec3u :=
  d0 ← axis_count (delta_x b) l;
  d1 ← axis_count (delta_y b) l;
  d2 ← axis_count (delta_z b) l;
  if decide (0 ≤ d0 ∧ 0 ≤ d1 ∧ 0 ≤ d2 ∧ d0 * d1 * d2 ≤ int_max)%Z
  then Some (Z.to_nat d0, Z.to_nat d1, Z.to_nat d2)
  else None.

(** [g.bbox], [g.len] and [g.dim] set, and [g.voxels = new int[size]].
    The cells of a fresh array hold no meaningful value; each of them is
    written by the classification pass before it is read. *)
Definition grid_geometry (b : AABB) (max_voxels_per_side : Z) : option VoxelGrid :=
  let l := edge_length b max_voxels_per_side in
  d ← grid_dim b l;
  Some {| bbox := b; len := l; dim := d;
          voxels := replicate (grid_size d) VOXEL_UNKNOWN |}.

(** Modelled from the spec: [PARALLEL_FOR] ([cinolib/parallel_for.h]) is
    not part of the sources at hand.  [PARALLEL_FOR(0, size, _, body)]
    runs the body once for every index below [size]; [schedule size] is
    the order in which the writes of the tasks take effect. *)
Definition PARALLEL_FOR {S : Type} (schedule : nat → list nat) (size : nat)
    (body : S → nat → S) (init : S) : S :=
  foldl body init (schedule size).

Definition sequential (size : nat) : list nat := seq 0 size.

(** ** Mesh variant: boundary classification (lines 63-81) *)

(** Modelled from the spec: the spatial index ([cinolib/octree.h]) and the
    box-triangle predicate are not part of the sources at hand.  An
    octree answers [intersects_box] with the identifiers of the items
    whose bounds overlap a box, and [items] looks an identifier up. *)
Record Octree (Triangle : Type) : Type := mkOctree
  { intersects_box : AABB → list nat;
    items : nat → Triangle }.
Arguments intersects_box {Triangle} o voxel.
Arguments items {Triangle} o id.

Section MeshVariant.

Context {Triangle : Type}.
Variable intersects_triangle : AABB → Triangle → bool.

(** lines 69-78: does some indexed triangle meet the box of the voxel *)
Definition voxel_boundary (o : Octree Triangle) (g : VoxelGrid) (ijk : vec3u) : bool :=
  let voxel := voxel_bbox g ijk in
  foldl (λ boundary id,
           if intersects_triangle voxel (items o id) then true else boundary)
        false (intersects_box o voxel).

Definition on_shell (ijk : vec3u) : bool :=
  let '(i, j, k) := ijk in
  bool_decide (i = 0) || bool_decide (j = 0) || bool_decide (k = 0).

(** lines 68-80: the body of the parallel loop *)
Definition classify_mesh_voxel (o : Octree Triangle)
    (st : VoxelGrid * Z) (index : nat) : VoxelGrid * Z :=
  let '(g, flood_seed) := st in
  let ijk := deserialize_3D_index index (dim g).1.2 (dim g).2 in
  let boundary := voxel_boundary o g ijk in
  let g := set_voxel g index (if boundary then VOXEL_BOUNDARY else VOXEL_UNKNOWN) in
  if negb boundary && on_shell ijk then (g, Z.of_nat index) else (g, flood_seed).

(** The tag that the pass stores for voxel [index], and whether the
    voxel is recorded as a seed: a voxel of the shell that is not on
    the boundary. *)
Definition mesh_tag (o : Octree Triangle) (g : VoxelGrid) (index : nat) : voxel_tag :=
  if voxel_boundary o g (deserialize_3D_index index (dim g).1.2 (dim g).2)
  then VOXEL_BOUNDARY else VOXEL_UNKNOWN.

Definition seed_candidate (o : Octree Triangle) (g : VoxelGrid) (index : nat) : bool :=
  let ijk := deserialize_3D_index index (dim g).1.2 (dim g).2 in
  negb (voxel_boundary o g ijk) && on_shell ijk.

(** The seed after the tasks of [l] have run in this order: the
    candidate whose task came last, or [fs] when there is none. *)
Definition last_candidate (o : Octree Triangle) (g : VoxelGrid) (fs : Z)
    (l : list nat) : Z :=
  foldl (λ s i, if seed_candidate o g i then Z.of_nat i else s) fs l.

End MeshVariant.

(** Every index below [size] is scheduled exactly once. *)
Definition fair (schedule : nat → list nat) : Prop :=
  ∀ size, schedule size ≡ₚ seq 0 size.

(** ** Exterior flood fill (lines 84-107) *)

(** The state of the two nested loops: the grid, the queue [q] (front
    first), the neighbours of the popped voxel that the [for] loop has
    still to visit, and, as a record of the run, every index handed to
    [q.push] so far (oldest first). *)
Record flood_state : Set := mkFlood
  { fs_grid : VoxelGrid;
    fs_queue : list nat;
    fs_n6 : list nat;
    fs_pushed : list nat }.

Inductive step_result : Set :=
| Next (s : flood_state)
| Halt
| AssertFailed.

(** lines 100-104: one turn of [for(auto nbr : n6)] *)
Definition flood_visit (s : flood_state) (nbr : nat) (rest : list nat) : flood_state :=
  if decide (voxels (fs_grid s) !! nbr = Some VOXEL_UNKNOWN) then
    {| fs_grid := set_voxel (fs_grid s) nbr VOXEL_OUTSIDE;
       fs_queue := fs_queue s ++ [nbr];
       fs_n6 := rest;
       fs_pushed := fs_pushed s ++ [nbr] |}
  else
    {| fs_grid := fs_grid s; fs_queue := fs_queue s;
       fs_n6 := rest; fs_pushed := fs_pushed s |}.

(** lines 91-96: [q.front()], [q.pop()], the [assert] and [voxel_n6] *)
Definition flood_pop (s : flood_state) (index : nat) (q : list nat) : step_result :=
  let g := fs_grid s in
  if decide (voxels g !! index = Some VOXEL_OUTSIDE) then
    let ijk := deserialize_3D_index index (dim g).1.2 (dim g).2 in
    Next {| fs_grid := g; fs_queue := q;
            fs_n6 := voxel_n6 (dim g) ijk;
            fs_pushed := fs_pushed s |}
  else AssertFailed.

Definition flood_step (s : flood_state) : step_result :=
  match fs_n6 s with
  | nbr :: rest => Next (flood_visit s nbr rest)
  | [] =>
      match fs_queue s with
      | [] => Halt
      | index :: q => flood_pop s index q
      end
  end.

Fixpoint flood_loop (fuel : nat) (s : flood_state) : outcome flood_state :=
  match flood_step s with
  | Halt => Done s
  | AssertFailed => AssertFailure
  | Next s' =>
      match fuel with
      | 0 => OutOfFuel
      | S fuel' => flood_loop fuel' s'
      end
  end.

(** lines 86-88: the seed is marked and pushed *)
Definition flood_init (g : VoxelGrid) (seed : nat) : flood_state :=
  {| fs_grid := set_voxel g seed VOXEL_OUTSIDE;
     fs_queue := [seed];
     fs_n6 := [];
     fs_pushed := [seed] |}.

(** Every pop is followed by at most six visits, and every voxel is
    pushed at most once: seven steps per voxel are enough. *)
Definition flood_fuel (g : VoxelGrid) : nat := 7 * length (voxels g).

(** lines 84-107 *)
Definition flood (g : VoxelGrid) (flood_seed : Z) : outcome VoxelGrid :=
  if decide (flood_seed > 0)%Z then
    match flood_loop (flood_fuel g) (flood_init g (Z.to_nat flood_seed)) with
    | Done s => Done (fs_grid s)
    | Undefined => Undefined
    | AssertFailure => AssertFailure
    | OutOfFuel => OutOfFuel
    end
  else Done g.

(** ** Residual pass (lines 109-116) *)

Definition mark_inside_voxel (g : VoxelGrid) (index : nat) : VoxelGrid :=
  if decide (voxels g !! index = Some VOXEL_UNKNOWN)
  then set_voxel g index VOXEL_INSIDE
  else g.

Definition mark_inside (size : nat) (g : VoxelGrid) : VoxelGrid :=
  foldl mark_inside_voxel g (seq 0 size).

(** ** [voxelize], mesh variant (lines 50-117) *)

Section VoxelizeMesh.

Context {Mesh Triangle : Type}.
Variable mesh_bbox : Mesh → AABB.
Variable build_from_mesh_polys : Mesh → Octree Triangle.
Variable intersects_triangle : AABB → Triangle → bool.
Variable schedule : nat → list nat.

(** lines 52-81: geometry, allocation and the classification pass *)
Definition classify_mesh (m : Mesh) (max_voxels_per_side : Z) : option (VoxelGrid * Z) :=
  g ← grid_geometry (mesh_bbox m) max_voxels_per_side;
  let size := grid_size (dim g) in
  let o := build_from_mesh_polys m in
  Some (PARALLEL_FOR schedule size
          (classify_mesh_voxel intersects_triangle o) (g, (-1)%Z)).

Definition voxelize_mesh (m : Mesh) (max_voxels_per_side : Z) : outcome VoxelGrid :=
  match classify_mesh m max_voxels_per_side with
  | None => Undefined
  | Some (g, flood_seed) =>
      match flood g flood_seed with
      | Done g => Done (mark_inside (grid_size (dim g)) g)
      | other => other
      end
  end.

End VoxelizeMesh.

(** ** [voxelize], implicit-function variant (lines 126-160) *)

Section VoxelizeFunction.

Variable f : vec3d → double.
Variable schedule : nat → list nat.

(** lines 145-155: the three flags after the eight corners *)
Definition corner_flags (g : VoxelGrid) (ijk : vec3u) : bool * bool * bool :=
  foldl (λ '(positive, negative, zero) off,
           let p := voxel_corner_xyz g ijk off in
           let fp := f p in
           (positive || flt fzero fp, negative || flt fp fzero, zero || feq fp fzero))
        (false, false, false) (seq 0 8).

(** lines 156-158 *)
Definition tag_of_flags (flags : bool * bool * bool) : voxel_tag :=
  let '(positive, negative, zero) := flags in
  if positive && negb negative && negb zero then VOXEL_OUTSIDE
  else if negb positive && negative && negb zero then VOXEL_INSIDE
  else VOXEL_BOUNDARY.

(** lines 144-158: the body of the parallel loop *)
Definition classify_function_voxel (g : VoxelGrid) (index : nat) : VoxelGrid :=
  let ijk := deserialize_3D_index index (dim g).1.2 (dim g).2 in
  set_voxel g index (tag_of_flags (corner_flags g ijk)).

(** The tag that the pass stores for voxel [index]. *)
Definition function_tag (g : VoxelGrid) (index : nat) : voxel_tag :=
  tag_of_flags (corner_flags g (deserialize_3D_index index (dim g).1.2 (dim g).2)).

(** The value of [f] at corner [off] of voxel [index]. *)
Definition corner_value (g : VoxelGrid) (index off : nat) : double :=
  f (voxel_corner_xyz g (deserialize_3D_index index (dim g).1.2 (dim g).2) off).

Definition voxelize_function (volume : AABB) (max_voxels_per_side : Z) : outcome VoxelGrid :=
  match grid_geometry volume max_voxels_per_side with
  | None => Undefined
  | Some g =>
      Done (PARALLEL_FOR schedule (grid_size (dim g)) classify_function_voxel g)
  end.

End VoxelizeFunction.

(** ** Hexahedra as general polyhedra ([hexmesh.h], lines 48-56 and 247-297) *)












(** ** Grid geometry in exact arithmetic *)



(** ** Example inputs *)

Definition unit_cube : AABB :=
  mkAABB (fzero, fzero, fzero) (of_int 1, of_int 1, of_int 1).

(** a box of no extent *)
Definition single_point : AABB :=
  mkAABB (fzero, fzero, fzero) (fzero, fzero, fzero).


(** An octree with one item, for a mesh with one element. *)
Definition one_triangle : Octree unit :=
  {| intersects_box := λ _, [0]; items := λ _, () |}.

Definition at_origin (p : vec3d) : bool :=
  let '(x, y, z) := p in feq x fzero && feq y fzero && feq z fzero.

(** The element meets every voxel but the one at the min corner of the
    bounding box. *)
Definition hit_away_from_origin (voxel : AABB) (t : unit) : bool :=
  negb (at_origin (aabb_min voxel)).

(** The element meets the voxels that lie beyond the first layer in [x]. *)
Definition hit_beyond_first_layer (voxel : AABB) (t : unit) : bool :=
  flt fzero (aabb_min voxel).1.1.

(** [f(p) = p.x / p.x]: 1 away from the plane [x = 0], NaN on it. *)
Definition x_over_x (p : vec3d) : double :=
  let '(x, y, z) := p in fdiv x x.

(** [f(p) = p.x + p.y + p.z - 1] *)
Definition plane (p : vec3d) : double :=
  let '(x, y, z) := p in fsub (fadd (fadd x y) z) (of_int 1).

(** ** Predicates of the flood fill *)

(** One step of the flood: [flood_step] goes from [s] to [s']. *)
Definition flood_next (s s' : flood_state) : Prop := flood_step s = Next s'.

(** The states the flood goes through when it starts from [seed] on [g]. *)
Definition flood_run (g : VoxelGrid) (seed : nat) (s : flood_state) : Prop :=
  rtc flood_next (flood_init g seed) s.

(** From voxel [a] the flood may enter the face neighbour [b]: [b] was not
    tagged [VOXEL_BOUNDARY] by the classification pass. *)
Definition open_step (g : VoxelGrid) (a b : nat) : Prop :=
  face_adjacent (dim g) a b ∧ voxels g !! b ≠ Some VOXEL_BOUNDARY.

(** [x] is joined to [seed] by a path of face neighbours none of which is
    tagged [VOXEL_BOUNDARY] in [g]. *)
Definition reachable (g : VoxelGrid) (seed x : nat) : Prop :=
  rtc (open_step g) seed x.

(** What the classification pass of the mesh variant leaves behind, and a
    seed it may have recorded. *)
Record flood_pre (g : VoxelGrid) (seed : nat) : Prop := mkFloodPre
  { pre_length : length (voxels g) = grid_size (dim g);
    pre_tags : ∀ i t, voxels g !! i = Some t →
                      t = VOXEL_UNKNOWN ∨ t = VOXEL_BOUNDARY;
    pre_seed : voxels g !! seed = Some VOXEL_UNKNOWN }.

(** A pass has left the tag of every voxel alone or has turned
    [VOXEL_UNKNOWN] into one of [VOXEL_OUTSIDE], [VOXEL_INSIDE]. *)
Definition promoted (v v' : list voxel_tag) : Prop :=
  length v' = length v ∧
  ∀ i, v' !! i = v !! i ∨
       (v !! i = Some VOXEL_UNKNOWN ∧
        (v' !! i = Some VOXEL_OUTSIDE ∨ v' !! i = Some VOXEL_INSIDE)).

Definition same_geometry (g g' : VoxelGrid) : Prop :=
  bbox g' = bbox g ∧ len g' = len g ∧ dim g' = dim g.

Definition unknowns (v : list voxel_tag) : nat :=
  length (filter (λ t, t = VOXEL_UNKNOWN) v).

(** The quantity that every step of the flood decreases. *)
Definition flood_measure (s : flood_state) : nat :=
  7 * (unknowns (voxels (fs_grid s)) + length (fs_queue s)) + length (fs_n6 s).

(** The invariant of the flood loop, for a run from [seed] on [g]. *)
Record flood_inv (g : VoxelGrid) (seed : nat) (popped : list nat)
    (s : flood_state) : Prop := mkFloodInv
  { inv_geometry : same_geometry g (fs_grid s);
    inv_length : length (voxels (fs_grid s)) = grid_size (dim g);
    inv_frame : ∀ i, voxels (fs_grid s) !! i = voxels g !! i ∨
                     (voxels g !! i = Some VOXEL_UNKNOWN ∧
                      voxels (fs_grid s) !! i = Some VOXEL_OUTSIDE);
    inv_pushed : fs_pushed s = popped ++ fs_queue s;
    inv_nodup : NoDup (fs_pushed s);
    inv_seed : seed ∈ fs_pushed s;
    inv_outside : ∀ i, voxels (fs_grid s) !! i = Some VOXEL_OUTSIDE ↔ i ∈ fs_pushed s;
    inv_sound : ∀ i, i ∈ fs_pushed s → reachable g seed i;
    inv_n6 : ∀ j, j ∈ fs_n6 s → ∃ i, i ∈ popped ∧ face_adjacent (dim g) i j;
    inv_closed : ∀ i j, i ∈ popped → open_step g i j →
                        voxels (fs_grid s) !! j = Some VOXEL_OUTSIDE ∨ j ∈ fs_n6 s }.

(** ** Further notions for the statements *)

(** [-x] on doubles *)
Definition fneg : double → double := SFopp.

(** [VOXEL_INSIDE] and [VOXEL_OUTSIDE] exchanged *)
Definition swap_tag (t : voxel_tag) : voxel_tag :=
  match t with
  | VOXEL_INSIDE => VOXEL_OUTSIDE
  | VOXEL_OUTSIDE => VOXEL_INSIDE
  | t => t
  end.

(** The schedule that runs the task of index 0 first and the others from
    the last index down. *)
Definition descending (size : nat) : list nat :=
  match size with
  | 0 => []
  | S n => 0 :: reverse (seq 1 n)
  end.

(** The unit square in the plane [z = 0]: a box of no extent along [z]. *)
Definition flat_box : AABB :=
  mkAABB (fzero, fzero, fzero) (of_int 1, of_int 1, fzero).






(** * Properties *)

(** ** Index lemmas *)

Section IndexFacts.

Lemma serialize_lt nx ny nz i j k :
  i < nx → j < ny → k < nz →
  serialize_3D_index i j k ny nz < nx * ny * nz.
Proof.
  intros Hi Hj Hk. unfold serialize_3D_index.
  assert (j * nz + k < ny * nz) by nia.
  assert (i * (ny * nz) + (ny * nz) ≤ nx * (ny * nz)) by nia.
  lia.
Qed.

Lemma deserialize_serialize ny nz i j k :
  j < ny → k < nz →
  deserialize_3D_index (serialize_3D_index i j k ny nz) ny nz = (i, j, k).
Proof.
  intros Hj Hk. unfold deserialize_3D_index, serialize_3D_index.
  assert (Hjk : j * nz + k < ny * nz) by nia.
  assert (Hnz : nz ≠ 0) by lia.
  assert (Hn : ny * nz ≠ 0) by nia.
  f_equal; [f_equal|].
  - replace (i * (ny * nz) + j * nz + k) with ((j * nz + k) + i * (ny * nz)) by lia.
    rewrite Nat.div_add by done. rewrite Nat.div_small by done. lia.
  - replace (i * (ny * nz) + j * nz + k) with (k + (i * ny + j) * nz) by lia.
    rewrite Nat.div_add by done. rewrite (Nat.div_small k nz) by done.
    simpl. rewrite Nat.add_comm, Nat.Div0.mod_add. by apply Nat.mod_small.
  - replace (i * (ny * nz) + j * nz + k) with (k + (i * ny + j) * nz) by lia.
    rewrite Nat.Div0.mod_add. by apply Nat.mod_small.
Qed.

Lemma deserialize_in_grid nx ny nz index :
  index < nx * ny * nz →
  in_grid (nx, ny, nz) (deserialize_3D_index index ny nz).
Proof.
  intros Hlt. unfold deserialize_3D_index, in_grid.
  assert (Hny : ny ≠ 0) by (intros ->; lia).
  assert (Hnz : nz ≠ 0) by (intros ->; lia).
  split; [|split].
  - apply Nat.Div0.div_lt_upper_bound. lia.
  - by apply Nat.mod_upper_bound.
  - by apply Nat.mod_upper_bound.
Qed.

Lemma serialize_deserialize nx ny nz index :
  index < nx * ny * nz →
  let '(i, j, k) := deserialize_3D_index index ny nz in
  serialize_3D_index i j k ny nz = index.
Proof.
  intros Hlt. unfold deserialize_3D_index, serialize_3D_index.
  assert (Hny : ny ≠ 0) by (intros ->; lia).
  assert (Hnz : nz ≠ 0) by (intros ->; lia).
  assert (Hq : index / (ny * nz) = index / nz / ny)
    by (rewrite Nat.Div0.div_div; f_equal; lia).
  rewrite Hq.
  pose proof (Nat.div_mod_eq index nz) as H1.
  pose proof (Nat.div_mod_eq (index / nz) ny) as H2.
  nia.
Qed.

End IndexFacts.

(** ** Face neighbours *)

Section NeighbourFacts.

Lemma voxel_n6_length d ijk : length (voxel_n6 d ijk) ≤ 6.
Proof.
  destruct d as [[nx ny] nz], ijk as [[i j] k]. unfold voxel_n6.
  repeat case_decide; simpl; lia.
Qed.

Lemma decode_in_grid d index :
  index < grid_size d → in_grid d (decode d index).
Proof.
  destruct d as [[nx ny] nz]. intros Hlt. by apply deserialize_in_grid.
Qed.

Lemma encode_decode d index :
  index < grid_size d → encode d (decode d index) = index.
Proof.
  destruct d as [[nx ny] nz]. intros Hlt. unfold encode, decode.
  pose proof (serialize_deserialize nx ny nz index Hlt) as H.
  by destruct (deserialize_3D_index index ny nz) as [[i j] k].
Qed.

Lemma decode_encode d ijk :
  in_grid d ijk → decode d (encode d ijk) = ijk.
Proof.
  destruct d as [[nx ny] nz], ijk as [[i j] k].
  intros (_ & Hj & Hk). by apply deserialize_serialize.
Qed.

Lemma encode_lt d ijk : in_grid d ijk → encode d ijk < grid_size d.
Proof.
  destruct d as [[nx ny] nz], ijk as [[i j] k].
  intros (Hi & Hj & Hk). by apply serialize_lt.
Qed.

Lemma voxel_n6_in_bounds d ijk nbr :
  in_grid d ijk → nbr ∈ voxel_n6 d ijk → nbr < grid_size d.
Proof.
  destruct d as [[nx ny] nz], ijk as [[i j] k].
  intros (Hi & Hj & Hk) Hm. unfold voxel_n6 in Hm.
  rewrite !elem_of_app in Hm.
  repeat case_decide; rewrite ?list_elem_of_singleton, ?elem_of_nil in Hm;
    repeat destruct Hm as [Hm|Hm]; try done; subst nbr;
    apply serialize_lt; lia.
Qed.

(** The members of [voxel_n6] are exactly the face neighbours. *)
Lemma voxel_n6_adjacent d a b :
  a < grid_size d →
  b ∈ voxel_n6 d (decode d a) ↔ face_adjacent d a b.
Proof.
  intros Ha. pose proof (decode_in_grid d a Ha) as Hin.
  unfold face_adjacent.
  destruct d as [[nx ny] nz].
  destruct (decode (nx, ny, nz) a) as [[i j] k] eqn:Hda.
  simpl in Hin. destruct Hin as (Hi & Hj & Hk).
  split.
  - intros Hb.
    assert (∃ i' j' k', b = serialize_3D_index i' j' k' ny nz ∧
              i' < nx ∧ j' < ny ∧ k' < nz ∧
              ((j = j' ∧ k = k' ∧ (i = i' + 1 ∨ i' = i + 1)) ∨
               (i = i' ∧ k = k' ∧ (j = j' + 1 ∨ j' = j + 1)) ∨
               (i = i' ∧ j = j' ∧ (k = k' + 1 ∨ k' = k + 1)))) as
      (i' & j' & k' & -> & Hi' & Hj' & Hk' & Hadj).
    { unfold voxel_n6 in Hb. rewrite !elem_of_app in Hb.
      repeat case_decide;
        rewrite ?list_elem_of_singleton, ?elem_of_nil in Hb;
        repeat destruct Hb as [Hb|Hb]; try done; subst b;
        (eexists _, _, _; split; [reflexivity|]; lia). }
    split; [done|]. split; [by apply serialize_lt|].
    unfold decode. by rewrite deserialize_serialize.
  - intros (_ & Hb & Hadj).
    pose proof (decode_in_grid _ b Hb) as Hinb.
    pose proof (encode_decode _ b Hb) as Heb.
    destruct (decode (nx, ny, nz) b) as [[i' j'] k'].
    simpl in Hinb, Heb. destruct Hinb as (Hi' & Hj' & Hk').
    unfold voxel_n6. rewrite !elem_of_app.
    destruct Hadj as [(-> & -> & [->| ->])|[(-> & -> & [->| ->])|(-> & -> & [->| ->])]].
    + left. rewrite decide_True by lia. apply list_elem_of_singleton.
      rewrite <- Heb. f_equal; lia.
    + right; left. rewrite decide_True by lia. by apply list_elem_of_singleton.
    + do 2 right; left. rewrite decide_True by lia. apply list_elem_of_singleton.
      rewrite <- Heb. f_equal; lia.
    + do 3 right; left. rewrite decide_True by lia. by apply list_elem_of_singleton.
    + do 4 right; left. rewrite decide_True by lia. apply list_elem_of_singleton.
      rewrite <- Heb. f_equal; lia.
    + do 5 right. rewrite decide_True by lia. by apply list_elem_of_singleton.
Qed.

End NeighbourFacts.

(** ** The linear index is a bijection *)

(** C5.  For a grid of [nx * ny * nz] voxels the code
    [i * (ny * nz) + j * nz + k] of a triple inside the grid is below
    [nx * ny * nz] and decodes to the triple, and every index below
    [nx * ny * nz] decodes to a triple inside the grid whose code it is:
    coding and decoding are inverse bijections between the triples of
    the grid and the indices [0 .. nx * ny * nz - 1]. *)
Theorem linear_index_bijection (nx ny nz : nat) :
  (∀ i j k, i < nx → j < ny → k < nz →
     serialize_3D_index i j k ny nz = i * (ny * nz) + j * nz + k ∧
     serialize_3D_index i j k ny nz < nx * ny * nz ∧
     deserialize_3D_index (serialize_3D_index i j k ny nz) ny nz = (i, j, k)) ∧
  (∀ index, index < nx * ny * nz →
     ∃ i j k, deserialize_3D_index index ny nz = (i, j, k) ∧
              i < nx ∧ j < ny ∧ k < nz ∧
              serialize_3D_index i j k ny nz = index) ∧
  (∀ i j k i' j' k', i < nx → j < ny → k < nz → i' < nx → j' < ny → k' < nz →
     serialize_3D_index i j k ny nz = serialize_3D_index i' j' k' ny nz →
     (i, j, k) = (i', j', k')).
Proof.
  split; [|split].
  - intros i j k Hi Hj Hk. split; [done|].
    split; [by apply serialize_lt | by apply deserialize_serialize].
  - intros index Hlt.
    pose proof (deserialize_in_grid nx ny nz index Hlt) as Hin.
    pose proof (serialize_deserialize nx ny nz index Hlt) as Hser.
    destruct (deserialize_3D_index index ny nz) as [[i j] k].
    exists i, j, k. destruct Hin as (? & ? & ?). done.
  - intros i j k i' j' k' Hi Hj Hk Hi' Hj' Hk' Heq.
    rewrite <- (deserialize_serialize ny nz i j k Hj Hk).
    rewrite <- (deserialize_serialize ny nz i' j' k' Hj' Hk').
    by rewrite Heq.
Qed.

Lemma linear_index_bijection_witness :
  deserialize_3D_index (serialize_3D_index 1 2 3 3 4) 3 4 = (1, 2, 3) ∧
  ∃ i j k, deserialize_3D_index 23 3 4 = (i, j, k) ∧ serialize_3D_index i j k 3 4 = 23.
Proof.
  destruct (linear_index_bijection 2 3 4) as (Henc & Hdec & _). split.
  - apply (Henc 1 2 3); lia.
  - destruct (Hdec 23 ltac:(lia)) as (i & j & k & Hd & _ & _ & _ & Hs).
    by exists i, j, k.
Defined.

(** ** The flood fill *)

Section FloodFacts.

Lemma unknowns_cons t v :
  unknowns (t :: v) = (if decide (t = VOXEL_UNKNOWN) then 1 else 0) + unknowns v.
Proof.
  unfold unknowns. rewrite filter_cons. by case_decide.
Qed.

Lemma unknowns_le v : unknowns v ≤ length v.
Proof. apply length_filter. Qed.

Lemma unknowns_insert v i t :
  v !! i = Some VOXEL_UNKNOWN → t ≠ VOXEL_UNKNOWN →
  S (unknowns (<[i := t]> v)) = unknowns v.
Proof.
  intros Hi Ht. revert i Hi.
  induction v as [|a v IH]; intros [|i] Hi; simpl in *; try done.
  - injection Hi as ->. rewrite !unknowns_cons.
    repeat case_decide; done.
  - rewrite !unknowns_cons. rewrite <- (IH i Hi). lia.
Qed.

Lemma decode_dim d index :
  deserialize_3D_index index d.1.2 d.2 = decode d index.
Proof. by destruct d as [[nx ny] nz]. Qed.

Lemma same_geometry_set_voxel g g' i t :
  same_geometry g g' → same_geometry g (set_voxel g' i t).
Proof. by intros (? & ? & ?). Qed.

Section Run.

Variables (g : VoxelGrid) (seed : nat).
Hypothesis Hpre : flood_pre g seed.

Lemma flood_pre_tag i :
  i < grid_size (dim g) →
  voxels g !! i = Some VOXEL_UNKNOWN ∨ voxels g !! i = Some VOXEL_BOUNDARY.
Proof.
  intros Hi. rewrite <- (pre_length _ _ Hpre) in Hi.
  destruct (lookup_lt_is_Some_2 _ _ Hi) as [t Ht].
  destruct (pre_tags _ _ Hpre i t Ht) as [-> | ->]; auto.
Qed.

Lemma flood_inv_init : flood_inv g seed [] (flood_init g seed).
Proof.
  pose proof (pre_seed _ _ Hpre) as Hs.
  pose proof (lookup_lt_Some _ _ _ Hs) as Hlt.
  split; simpl.
  - done.
  - rewrite length_insert. apply Hpre.
  - intros i. destruct (decide (i = seed)) as [-> | Hne].
    + right. by rewrite list_lookup_insert_eq.
    + left. by rewrite list_lookup_insert_ne.
  - done.
  - apply NoDup_singleton.
  - by apply list_elem_of_singleton.
  - intros i. rewrite list_elem_of_singleton.
    destruct (decide (i = seed)) as [-> | Hne].
    + by rewrite list_lookup_insert_eq.
    + rewrite list_lookup_insert_ne by done. split; [|done].
      intros Hi. by destruct (pre_tags _ _ Hpre i _ Hi).
  - intros i Hi. apply list_elem_of_singleton in Hi. subst i. apply rtc_refl.
  - by intros j ?%elem_of_nil.
  - by intros i j ?%elem_of_nil.
Qed.

Lemma flood_inv_lt popped s i :
  flood_inv g seed popped s → i ∈ fs_pushed s → i < grid_size (dim g).
Proof.
  intros Hinv Hi. rewrite <- (inv_length _ _ _ _ Hinv).
  apply (inv_outside _ _ _ _ Hinv) in Hi. by eapply lookup_lt_Some.
Qed.

(** A visit that finds the neighbour [VOXEL_UNKNOWN] marks and pushes it. *)
Lemma flood_inv_mark popped s nbr rest :
  flood_inv g seed popped s →
  fs_n6 s = nbr :: rest →
  voxels (fs_grid s) !! nbr = Some VOXEL_UNKNOWN →
  flood_inv g seed popped
    {| fs_grid := set_voxel (fs_grid s) nbr VOXEL_OUTSIDE;
       fs_queue := fs_queue s ++ [nbr];
       fs_n6 := rest;
       fs_pushed := fs_pushed s ++ [nbr] |}.
Proof.
  intros Hinv Hn6 Hnbr.
  pose proof (lookup_lt_Some _ _ _ Hnbr) as Hlt.
  assert (Hfresh : nbr ∉ fs_pushed s).
  { intros Hin%(inv_outside _ _ _ _ Hinv). congruence. }
  assert (Hg0 : voxels g !! nbr = Some VOXEL_UNKNOWN).
  { destruct (inv_frame _ _ _ _ Hinv nbr) as [Heq | [? ?]]; congruence. }
  split; simpl.
  - apply same_geometry_set_voxel, Hinv.
  - rewrite length_insert. apply Hinv.
  - intros i. destruct (decide (i = nbr)) as [-> | Hne].
    + right. by rewrite list_lookup_insert_eq.
    + rewrite list_lookup_insert_ne by done. apply Hinv.
  - rewrite (inv_pushed _ _ _ _ Hinv). by rewrite app_assoc.
  - apply NoDup_app. split; [apply Hinv|]. split; [|apply NoDup_singleton].
    intros x Hx Hx'. apply list_elem_of_singleton in Hx'. by subst x.
  - apply elem_of_app. left. apply Hinv.
  - intros i. rewrite elem_of_app, list_elem_of_singleton.
    destruct (decide (i = nbr)) as [-> | Hne].
    + rewrite list_lookup_insert_eq by done. split; [by right | done].
    + rewrite list_lookup_insert_ne by done.
      rewrite (inv_outside _ _ _ _ Hinv). split; [by left | by intros [?|?]].
  - intros i [Hi | Hi]%elem_of_app.
    + by apply (inv_sound _ _ _ _ Hinv).
    + apply list_elem_of_singleton in Hi. subst i.
      destruct (inv_n6 _ _ _ _ Hinv nbr) as (c & Hc & Hadj).
      { rewrite Hn6. by left. }
      apply rtc_r with c.
      * apply (inv_sound _ _ _ _ Hinv).
        rewrite (inv_pushed _ _ _ _ Hinv). apply elem_of_app. by left.
      * split; [done|]. congruence.
  - intros j Hj. apply (inv_n6 _ _ _ _ Hinv). rewrite Hn6. by right.
  - intros i j Hi Hstep.
    destruct (decide (j = nbr)) as [-> | Hne].
    + left. by rewrite list_lookup_insert_eq.
    + rewrite list_lookup_insert_ne by done.
      destruct (inv_closed _ _ _ _ Hinv i j Hi Hstep) as [? | Hj]; [by left|].
      rewrite Hn6 in Hj. apply elem_of_cons in Hj as [? | ?]; [done | by right].
Qed.

(** A visit that finds the neighbour already tagged leaves it alone. *)
Lemma flood_inv_skip popped s nbr rest :
  flood_inv g seed popped s →
  fs_n6 s = nbr :: rest →
  voxels (fs_grid s) !! nbr ≠ Some VOXEL_UNKNOWN →
  flood_inv g seed popped
    {| fs_grid := fs_grid s; fs_queue := fs_queue s;
       fs_n6 := rest; fs_pushed := fs_pushed s |}.
Proof.
  intros Hinv Hn6 Hnbr.
  split; simpl; try apply Hinv.
  - intros j Hj. apply (inv_n6 _ _ _ _ Hinv). rewrite Hn6. by right.
  - intros i j Hi Hstep.
    destruct (inv_closed _ _ _ _ Hinv i j Hi Hstep) as [? | Hj]; [by left|].
    rewrite Hn6 in Hj. apply elem_of_cons in Hj as [-> | ?]; [|by right].
    left. destruct Hstep as [(_ & Hlt & _) Hopen].
    destruct (inv_frame _ _ _ _ Hinv nbr) as [Heq | [_ ?]]; [|done].
    destruct (flood_pre_tag nbr Hlt) as [Hu | Hb]; congruence.
Qed.

(** The voxel at the front of the queue passes the [assert]; its
    neighbours become the pending ones. *)
Lemma flood_inv_pop popped s index q :
  flood_inv g seed popped s →
  fs_n6 s = [] →
  fs_queue s = index :: q →
  voxels (fs_grid s) !! index = Some VOXEL_OUTSIDE ∧
  flood_inv g seed (popped ++ [index])
    {| fs_grid := fs_grid s; fs_queue := q;
       fs_n6 := voxel_n6 (dim (fs_grid s))
                  (deserialize_3D_index index (dim (fs_grid s)).1.2 (dim (fs_grid s)).2);
       fs_pushed := fs_pushed s |}.
Proof.
  intros Hinv Hn6 Hq.
  assert (Hin : index ∈ fs_pushed s).
  { rewrite (inv_pushed _ _ _ _ Hinv), Hq. apply elem_of_app. right. by left. }
  pose proof (flood_inv_lt _ _ _ Hinv Hin) as Hlt.
  destruct (inv_geometry _ _ _ _ Hinv) as (_ & _ & Hdim).
  split; [by apply (inv_outside _ _ _ _ Hinv)|].
  rewrite Hdim, decode_dim.
  split; simpl; try apply Hinv.
  - rewrite (inv_pushed _ _ _ _ Hinv), Hq. by rewrite <- app_assoc.
  - intros j Hj. exists index. split; [apply elem_of_app; right; by left|].
    by apply voxel_n6_adjacent.
  - intros i j [Hi | Hi]%elem_of_app Hstep.
    + destruct (inv_closed _ _ _ _ Hinv i j Hi Hstep) as [? | Hj]; [by left|].
      rewrite Hn6 in Hj. by apply elem_of_nil in Hj.
    + apply list_elem_of_singleton in Hi. subst i. right. apply voxel_n6_adjacent; [done|]. apply Hstep.
Qed.

(** Every state of the loop either ends it, with the queue empty, or
    steps to a state that satisfies the invariant and has a smaller
    measure; the [assert] never fails. *)
Lemma flood_inv_progress popped s :
  flood_inv g seed popped s →
  (flood_step s = Halt ∧ fs_queue s = [] ∧ fs_n6 s = []) ∨
  ∃ s' popped', flood_step s = Next s' ∧ flood_inv g seed popped' s' ∧
                flood_measure s' < flood_measure s.
Proof.
  intros Hinv. unfold flood_step.
  destruct (fs_n6 s) as [|nbr rest] eqn:Hn6.
  - destruct (fs_queue s) as [|index q] eqn:Hq; [by left|]. right.
    destruct (flood_inv_pop _ _ _ _ Hinv Hn6 Hq) as [Hout Hinv'].
    unfold flood_pop. rewrite decide_True by done.
    eexists _, _. split; [done|]. split; [exact Hinv'|].
    unfold flood_measure. simpl. rewrite Hn6, Hq. simpl.
    pose proof (voxel_n6_length (dim (fs_grid s))
      (deserialize_3D_index index (dim (fs_grid s)).1.2 (dim (fs_grid s)).2)).
    lia.
  - right. unfold flood_visit. case_decide as Hnbr.
    + eexists _, _. split; [done|].
      split; [by apply flood_inv_mark|].
      unfold flood_measure. simpl. rewrite Hn6, length_app. simpl.
      pose proof (unknowns_insert _ _ VOXEL_OUTSIDE Hnbr ltac:(done)). lia.
    + eexists _, _. split; [done|].
      split; [by eapply flood_inv_skip|].
      unfold flood_measure. simpl. rewrite Hn6. simpl. lia.
Qed.

Lemma flood_run_inv s :
  flood_run g seed s → ∃ popped, flood_inv g seed popped s.
Proof.
  unfold flood_run. revert s.
  apply (rtc_ind_r (λ s, ∃ popped, flood_inv g seed popped s)).
  - exists []. apply flood_inv_init.
  - intros s1 s2 Hrun Hstep [popped Hinv].
    destruct (flood_inv_progress _ _ Hinv) as [[Hhalt _] | (s' & popped' & Hs' & Hinv' & _)];
      unfold flood_next in Hstep; [congruence|].
    exists popped'. congruence.
Qed.

(** Fuel above the measure is enough: the loop ends, and it ends with
    an empty queue in a state that the flood steps lead to. *)
Lemma flood_loop_done fuel : ∀ popped s,
  flood_inv g seed popped s →
  flood_measure s ≤ fuel →
  ∃ s' popped', flood_loop fuel s = Done s' ∧ rtc flood_next s s' ∧
                flood_inv g seed popped' s' ∧
                fs_queue s' = [] ∧ fs_n6 s' = [].
Proof.
  induction fuel as [|fuel IH]; intros popped s Hinv Hfuel.
  - destruct (flood_inv_progress _ _ Hinv) as [(Hhalt & Hq & Hn) | (s' & popped' & Hs' & Hinv' & Hlt)];
      [|lia].
    exists s, popped. simpl. rewrite Hhalt.
      split; [done|]. split; [apply rtc_refl|]. done.
  - destruct (flood_inv_progress _ _ Hinv) as [(Hhalt & Hq & Hn) | (s' & popped' & Hs' & Hinv' & Hlt)].
    + exists s, popped. simpl. rewrite Hhalt.
      split; [done|]. split; [apply rtc_refl|]. done.
    + destruct (IH popped' s' Hinv') as (s'' & popped'' & Hloop & Hrtc & Hinv'' & Hq & Hn);
        [lia|].
      exists s'', popped''. simpl. rewrite Hs'.
      split; [done|]. split; [|done]. by eapply rtc_l.
Qed.

(** With an empty queue, every voxel joined to the seed is outside. *)
Lemma flood_inv_complete popped s x :
  flood_inv g seed popped s →
  fs_queue s = [] → fs_n6 s = [] →
  reachable g seed x →
  voxels (fs_grid s) !! x = Some VOXEL_OUTSIDE.
Proof.
  intros Hinv Hq Hn. unfold reachable. revert x.
  apply (rtc_ind_r (λ x, voxels (fs_grid s) !! x = Some VOXEL_OUTSIDE)).
  - apply (inv_outside _ _ _ _ Hinv), Hinv.
  - intros y z Hreach Hstep IH.
    apply (inv_outside _ _ _ _ Hinv) in IH.
    rewrite (inv_pushed _ _ _ _ Hinv), Hq, app_nil_r in IH.
    destruct (inv_closed _ _ _ _ Hinv y z IH Hstep) as [? | Hz]; [done|].
    rewrite Hn in Hz. by apply elem_of_nil in Hz.
Qed.

End Run.

End FloodFacts.

(** ** The classification pass of the mesh variant *)

Section ClassifyFacts.

Context {Triangle : Type}.
Variable intersects_triangle : AABB → Triangle → bool.
Variable o : Octree Triangle.

Lemma voxel_boundary_geometry g g' ijk :
  same_geometry g g' →
  voxel_boundary intersects_triangle o g' ijk = voxel_boundary intersects_triangle o g ijk.
Proof.
  intros (Hb & Hl & _). unfold voxel_boundary, voxel_bbox, voxel_point.
  by rewrite Hb, Hl.
Qed.

Lemma mesh_tag_geometry g g' index :
  same_geometry g g' →
  mesh_tag intersects_triangle o g' index = mesh_tag intersects_triangle o g index.
Proof.
  intros Hg. unfold mesh_tag. pose proof Hg as (Hb & Hl & Hd).
  rewrite Hd. by rewrite (voxel_boundary_geometry g g').
Qed.

Lemma seed_candidate_geometry g g' index :
  same_geometry g g' →
  seed_candidate intersects_triangle o g' index = seed_candidate intersects_triangle o g index.
Proof.
  intros Hg. unfold seed_candidate. pose proof Hg as (Hb & Hl & Hd).
  rewrite Hd. by rewrite (voxel_boundary_geometry g g').
Qed.

Lemma classify_mesh_voxel_eq g fs index :
  classify_mesh_voxel intersects_triangle o (g, fs) index =
  (set_voxel g index (mesh_tag intersects_triangle o g index),
   if seed_candidate intersects_triangle o g index then Z.of_nat index else fs).
Proof.
  unfold classify_mesh_voxel, mesh_tag, seed_candidate.
  by destruct (negb _ && _).
Qed.

Lemma last_candidate_geometry g g' l : ∀ fs,
  same_geometry g g' →
  last_candidate intersects_triangle o g' fs l = last_candidate intersects_triangle o g fs l.
Proof.
  induction l as [|a l IH]; intros fs Hg; [done|].
  unfold last_candidate in *. simpl.
  rewrite (seed_candidate_geometry g g' a Hg). by apply IH.
Qed.

Lemma classify_fold l : ∀ g fs g' fs',
  foldl (classify_mesh_voxel intersects_triangle o) (g, fs) l = (g', fs') →
  same_geometry g g' ∧
  length (voxels g') = length (voxels g) ∧
  (∀ i, voxels g' !! i =
        if decide (i ∈ l ∧ i < length (voxels g))
        then Some (mesh_tag intersects_triangle o g i)
        else voxels g !! i) ∧
  fs' = last_candidate intersects_triangle o g fs l.
Proof.
  induction l as [|a l IH]; intros g fs g' fs' Hfold; cbn [foldl] in Hfold.
  - injection Hfold as <- <-. repeat split; try done.
  - rewrite classify_mesh_voxel_eq in Hfold.
    apply IH in Hfold as (Hg & Hlen & Hv & Hfs).
    assert (Hg1 : same_geometry g (set_voxel g a (mesh_tag intersects_triangle o g a)))
      by done.
    split; [|split; [|split]].
    + destruct Hg as (? & ? & ?). repeat split; simpl in *; congruence.
    + rewrite Hlen. simpl. by rewrite length_insert.
    + intros i. rewrite Hv. simpl. rewrite length_insert.
      rewrite (mesh_tag_geometry g _ i Hg1).
      destruct (decide (i = a)) as [-> | Hne].
      * destruct (decide (a < length (voxels g))) as [Hlt | Hge].
        -- rewrite (decide_True (P := a ∈ a :: l ∧ _)) by (split; [by left | done]).
           case_decide; [done|]. by rewrite list_lookup_insert_eq.
        -- rewrite !decide_False by (intros [_ ?]; done).
           rewrite list_insert_ge; [done | lia].
      * rewrite list_lookup_insert_ne by done.
        destruct (decide (i ∈ l ∧ i < length (voxels g))) as [[Hin Hlt] | Hnot].
        -- by rewrite decide_True by (split; [by right | done]).
        -- rewrite decide_False; [done|].
           intros [[?|?]%elem_of_cons ?]; [done|]. by apply Hnot.
    + rewrite Hfs. rewrite (last_candidate_geometry g _ l _ Hg1). done.
Qed.

(** The seed is [-1] when no task recorded one, and a candidate otherwise. *)
Lemma last_candidate_cases g l : ∀ fs,
  (last_candidate intersects_triangle o g fs l = fs ∧
   ∀ i, i ∈ l → seed_candidate intersects_triangle o g i = false) ∨
  (∃ i, i ∈ l ∧ seed_candidate intersects_triangle o g i = true ∧
        last_candidate intersects_triangle o g fs l = Z.of_nat i).
Proof.
  induction l as [|a l IH] using rev_ind; intros fs.
  - left. split; [done|]. by intros i ?%elem_of_nil.
  - unfold last_candidate in *. rewrite foldl_snoc.
    destruct (seed_candidate intersects_triangle o g a) eqn:Ha.
    + right. exists a. split; [|done]. apply elem_of_app. right. by left.
    + destruct (IH fs) as [[Heq Hno] | (i & Hi & Hc & Heq)].
      * left. split; [done|]. intros i [?|Hi]%elem_of_app; [by apply Hno|].
        apply list_elem_of_singleton in Hi. by subst i.
      * right. exists i. split; [|done]. apply elem_of_app. by left.
Qed.

End ClassifyFacts.

(** ** The residual pass *)

Section ResidualFacts.

Lemma mark_inside_voxel_geometry g index :
  same_geometry g (mark_inside_voxel g index).
Proof. unfold mark_inside_voxel. by case_decide. Qed.

Lemma mark_inside_fold l : ∀ g,
  same_geometry g (foldl mark_inside_voxel g l) ∧
  ∀ i, voxels (foldl mark_inside_voxel g l) !! i =
       if decide (i ∈ l ∧ voxels g !! i = Some VOXEL_UNKNOWN)
       then Some VOXEL_INSIDE else voxels g !! i.
Proof.
  induction l as [|a l IH]; intros g; cbn [foldl].
  - split; [done|]. intros i. rewrite decide_False; [done|].
    intros [Hi _]. by apply elem_of_nil in Hi.
  - destruct (IH (mark_inside_voxel g a)) as [Hg Hv]. split.
    + destruct Hg as (? & ? & ?), (mark_inside_voxel_geometry g a) as (? & ? & ?).
      repeat split; congruence.
    + intros i. rewrite Hv. unfold mark_inside_voxel.
      destruct (decide (voxels g !! a = Some VOXEL_UNKNOWN)) as [Ha | Ha]; simpl.
      * pose proof (lookup_lt_Some _ _ _ Ha) as Hlt.
        destruct (decide (i = a)) as [-> | Hne].
        -- rewrite list_lookup_insert_eq by done.
           rewrite decide_False by (intros [_ ?]; done).
           by rewrite decide_True by (split; [by left | done]).
        -- rewrite list_lookup_insert_ne by done.
           destruct (decide (i ∈ l ∧ voxels g !! i = Some VOXEL_UNKNOWN)) as [[? ?] | Hnot].
           ++ by rewrite decide_True by (split; [by right | done]).
           ++ rewrite decide_False; [done|].
              intros [[?|?]%elem_of_cons ?]; [done|]. by apply Hnot.
      * destruct (decide (i ∈ l ∧ voxels g !! i = Some VOXEL_UNKNOWN)) as [[? ?] | Hnot].
        -- by rewrite decide_True by (split; [by right | done]).
        -- rewrite decide_False; [done|].
           intros [[->|?]%elem_of_cons ?]; [done|]. by apply Hnot.
Qed.

Lemma mark_inside_geometry size g : same_geometry g (mark_inside size g).
Proof. apply mark_inside_fold. Qed.

Lemma mark_inside_lookup size g i :
  voxels (mark_inside size g) !! i =
  if decide (voxels g !! i = Some VOXEL_UNKNOWN ∧ i < size)
  then Some VOXEL_INSIDE else voxels g !! i.
Proof.
  unfold mark_inside. rewrite (proj2 (mark_inside_fold _ g)).
  destruct (decide (voxels g !! i = Some VOXEL_UNKNOWN ∧ i < size)) as [[? ?] | Hnot].
  - rewrite decide_True; [done|]. split; [|done]. apply elem_of_seq. lia.
  - rewrite decide_False; [done|]. intros [Hi ?]. apply Hnot. split; [done|].
    apply elem_of_seq in Hi. lia.
Qed.

Lemma mark_inside_length size g :
  length (voxels (mark_inside size g)) = length (voxels g).
Proof.
  unfold mark_inside. generalize (seq 0 size). intros l. revert g.
  induction l as [|a l IH]; intros g; cbn [foldl]; [done|].
  rewrite IH. unfold mark_inside_voxel. case_decide; [|done].
  simpl. by rewrite length_insert.
Qed.

Lemma mark_inside_promoted size g :
  promoted (voxels g) (voxels (mark_inside size g)).
Proof.
  split; [apply mark_inside_length|]. intros i.
  rewrite mark_inside_lookup. case_decide as H; [|by left].
  right. destruct H. split; [done | by right].
Qed.

Lemma mark_inside_classified size g i :
  i < size →
  voxels (mark_inside size g) !! i ≠ Some VOXEL_UNKNOWN.
Proof.
  intros Hi. rewrite mark_inside_lookup. case_decide as H; [done|].
  intros Hu. apply H. by split.
Qed.

End ResidualFacts.

(** ** Promotion of tags *)

Section PromotedFacts.

Lemma promoted_refl v : promoted v v.
Proof. split; [done|]. by left. Qed.

Lemma promoted_trans v1 v2 v3 :
  promoted v1 v2 → promoted v2 v3 → promoted v1 v3.
Proof.
  intros [Hl1 H1] [Hl2 H2]. split; [congruence|]. intros i.
  destruct (H1 i) as [E1 | [U1 O1]], (H2 i) as [E2 | [U2 O2]].
  - left. congruence.
  - right. split; [congruence | done].
  - right. split; [done|]. by rewrite E2.
  - destruct O1; congruence.
Qed.

(** A tag other than [VOXEL_UNKNOWN] stays. *)
Lemma promoted_keeps v v' i t :
  promoted v v' → v !! i = Some t → t ≠ VOXEL_UNKNOWN → v' !! i = Some t.
Proof.
  intros [_ H] Hi Ht. destruct (H i) as [E | [U _]]; congruence.
Qed.

Lemma flood_step_promoted s s' :
  flood_next s s' →
  same_geometry (fs_grid s) (fs_grid s') ∧
  promoted (voxels (fs_grid s)) (voxels (fs_grid s')).
Proof.
  unfold flood_next, flood_step, flood_pop, flood_visit.
  intros Hstep. repeat case_match; simplify_eq; simpl;
    try (split; [done | apply promoted_refl]).
  split; [done|]. split; [by rewrite length_insert|]. intros i.
  destruct (decide (i = n)) as [-> | Hne].
  - right. split; [done|]. left. rewrite list_lookup_insert_eq; [done|].
    by eapply lookup_lt_Some.
  - left. by rewrite list_lookup_insert_ne.
Qed.

Lemma flood_steps_promoted s s' :
  rtc flood_next s s' →
  same_geometry (fs_grid s) (fs_grid s') ∧
  promoted (voxels (fs_grid s)) (voxels (fs_grid s')).
Proof.
  induction 1 as [|s1 s2 s3 Hstep _ [Hg Hp]].
  - split; [done | apply promoted_refl].
  - destruct (flood_step_promoted _ _ Hstep) as [Hg' Hp'].
    split; [|by eapply promoted_trans].
    destruct Hg as (? & ? & ?), Hg' as (? & ? & ?). repeat split; congruence.
Qed.

(** The steps of the flood are those of a function: two runs from the
    same state are one the prefix of the other. *)
Lemma flood_steps_to_halt s s1 s2 :
  rtc flood_next s s1 → rtc flood_next s s2 → flood_step s2 = Halt →
  rtc flood_next s1 s2.
Proof.
  intros H1. revert s2. induction H1 as [|s s' s1 Hstep H1 IH]; intros s2 H2 Hhalt; [done|].
  apply IH; [|done].
  destruct H2 as [|s s'' s2 Hstep' H2]; unfold flood_next in *; congruence.
Qed.

End PromotedFacts.

(** ** The classification pass of the implicit-function variant *)

Section FunctionFacts.

Variable f : vec3d → double.

Lemma corner_flags_geometry g g' ijk :
  same_geometry g g' → corner_flags f g' ijk = corner_flags f g ijk.
Proof.
  intros (Hb & Hl & _). unfold corner_flags, voxel_corner_xyz, voxel_point.
  by rewrite Hb, Hl.
Qed.

Lemma function_tag_geometry g g' index :
  same_geometry g g' → function_tag f g' index = function_tag f g index.
Proof.
  intros Hg. unfold function_tag. rewrite (corner_flags_geometry g g' _ Hg).
  destruct Hg as (_ & _ & Hd). by rewrite Hd.
Qed.

Lemma classify_function_fold l : ∀ g,
  same_geometry g (foldl (classify_function_voxel f) g l) ∧
  length (voxels (foldl (classify_function_voxel f) g l)) = length (voxels g) ∧
  ∀ i, voxels (foldl (classify_function_voxel f) g l) !! i =
       if decide (i ∈ l ∧ i < length (voxels g))
       then Some (function_tag f g i)
       else voxels g !! i.
Proof.
  induction l as [|a l IH]; intros g; cbn [foldl].
  - repeat split; try done.
  - destruct (IH (classify_function_voxel f g a)) as (Hg & Hlen & Hv).
    assert (Hg1 : same_geometry g (classify_function_voxel f g a)) by done.
    split; [|split].
    + destruct Hg as (? & ? & ?). repeat split; simpl in *; congruence.
    + rewrite Hlen. unfold classify_function_voxel. simpl. by rewrite length_insert.
    + intros i. rewrite Hv. rewrite (function_tag_geometry g _ i Hg1).
      unfold classify_function_voxel at 1 2. simpl. rewrite length_insert.
      fold (function_tag f g a).
      destruct (decide (i = a)) as [-> | Hne].
      * destruct (decide (a < length (voxels g))) as [Hlt | Hge].
        -- rewrite (decide_True (P := a ∈ a :: l ∧ _)) by (split; [by left | done]).
           case_decide; [done|]. by rewrite list_lookup_insert_eq.
        -- rewrite !decide_False by (intros [_ ?]; done).
           rewrite list_insert_ge; [done | lia].
      * rewrite list_lookup_insert_ne by done.
        destruct (decide (i ∈ l ∧ i < length (voxels g))) as [[Hin Hlt] | Hnot].
        -- by rewrite decide_True by (split; [by right | done]).
        -- rewrite decide_False; [done|].
           intros [[?|?]%elem_of_cons ?]; [done|]. by apply Hnot.
Qed.

End FunctionFacts.

(** ** Geometry and allocation *)

Section GeometryFacts.

Lemma grid_geometry_Some b R g :
  grid_geometry b R = Some g →
  bbox g = b ∧ len g = edge_length b R ∧
  grid_dim b (edge_length b R) = Some (dim g) ∧
  voxels g = replicate (grid_size (dim g)) VOXEL_UNKNOWN.
Proof.
  unfold grid_geometry. intros H.
  destruct (grid_dim b (edge_length b R)) as [d|]; simplify_eq/=. done.
Qed.

Lemma grid_geometry_length b R g :
  grid_geometry b R = Some g → length (voxels g) = grid_size (dim g).
Proof.
  intros (_ & _ & _ & ->)%grid_geometry_Some. by rewrite length_replicate.
Qed.

Lemma fair_elem_of schedule size i :
  fair schedule → i ∈ schedule size ↔ i < size.
Proof.
  intros Hfair. rewrite (Hfair size), elem_of_seq. lia.
Qed.

Lemma same_geometry_refl g : same_geometry g g.
Proof. done. Qed.

Lemma same_geometry_trans g1 g2 g3 :
  same_geometry g1 g2 → same_geometry g2 g3 → same_geometry g1 g3.
Proof.
  intros (? & ? & ?) (? & ? & ?). repeat split; congruence.
Qed.

Lemma flood_init_promoted g seed :
  flood_pre g seed →
  promoted (voxels g) (voxels (fs_grid (flood_init g seed))).
Proof.
  intros Hpre. pose proof (pre_seed _ _ Hpre) as Hs.
  split; simpl; [by rewrite length_insert|]. intros i.
  destruct (decide (i = seed)) as [-> | Hne].
  - right. split; [done|]. left. rewrite list_lookup_insert_eq; [done|].
    by eapply lookup_lt_Some.
  - left. by rewrite list_lookup_insert_ne.
Qed.

Lemma flood_step_Halt s : fs_queue s = [] → fs_n6 s = [] → flood_step s = Halt.
Proof. intros Hq Hn. unfold flood_step. by rewrite Hn, Hq. Qed.

End GeometryFacts.

(** ** The passes of the mesh variant, put together *)

Section MeshPipeline.

Context {Mesh Triangle : Type}.
Variable mesh_bbox : Mesh → AABB.
Variable build_from_mesh_polys : Mesh → Octree Triangle.
Variable intersects_triangle : AABB → Triangle → bool.
Variable schedule : nat → list nat.
Hypothesis Hfair : fair schedule.

Local Abbreviation classify := (classify_mesh mesh_bbox build_from_mesh_polys intersects_triangle schedule).
Local Abbreviation voxelize := (voxelize_mesh mesh_bbox build_from_mesh_polys intersects_triangle schedule).
Local Abbreviation tag_in m := (mesh_tag intersects_triangle (build_from_mesh_polys m)).
Local Abbreviation candidate_in m := (seed_candidate intersects_triangle (build_from_mesh_polys m)).

Lemma classify_mesh_spec m R g1 fs :
  classify m R = Some (g1, fs) →
  ∃ g0, grid_geometry (mesh_bbox m) R = Some g0 ∧
    same_geometry g0 g1 ∧
    length (voxels g1) = grid_size (dim g1) ∧
    (∀ i, i < grid_size (dim g1) → voxels g1 !! i = Some (tag_in m g1 i)) ∧
    fs = last_candidate intersects_triangle (build_from_mesh_polys m) g1 (-1)
           (schedule (grid_size (dim g1))).
Proof.
  unfold classify_mesh, PARALLEL_FOR. intros H.
  destruct (grid_geometry (mesh_bbox m) R) as [g0|] eqn:Hgeo; simplify_eq/=.
  apply classify_fold in H as (Hg & Hlen & Hv & Hfs).
  pose proof (grid_geometry_length _ _ _ Hgeo) as Hlen0.
  pose proof Hg as (Hb & Hl & Hd). exists g0.
  split; [done|]. split; [done|]. rewrite Hd. split; [congruence|]. split.
  - intros i Hi. rewrite Hv. rewrite decide_True.
    + by rewrite (mesh_tag_geometry _ _ g0 g1).
    + split; [by apply fair_elem_of | lia].
  - rewrite Hfs. symmetry. by apply last_candidate_geometry.
Qed.

Lemma classify_mesh_tags m R g1 fs i t :
  classify m R = Some (g1, fs) →
  voxels g1 !! i = Some t → t = VOXEL_UNKNOWN ∨ t = VOXEL_BOUNDARY.
Proof.
  intros (g0 & _ & _ & Hlen & Hv & _)%classify_mesh_spec Hi.
  pose proof (lookup_lt_Some _ _ _ Hi) as Hlt. rewrite Hlen in Hlt.
  rewrite (Hv i Hlt) in Hi. injection Hi as <-.
  unfold mesh_tag. destruct (voxel_boundary _ _ _ _); auto.
Qed.

(** A recorded seed is a voxel of the grid, on the shell, that the pass
    left [VOXEL_UNKNOWN]. *)
Lemma classify_mesh_seed m R g1 fs :
  classify m R = Some (g1, fs) →
  fs = (-1)%Z ∨
  ∃ i, fs = Z.of_nat i ∧ i < grid_size (dim g1) ∧
       candidate_in m g1 i = true ∧
       voxels g1 !! i = Some VOXEL_UNKNOWN.
Proof.
  intros (g0 & _ & _ & Hlen & Hv & ->)%classify_mesh_spec.
  destruct (last_candidate_cases intersects_triangle (build_from_mesh_polys m) g1
              (schedule (grid_size (dim g1))) (-1)%Z)
    as [[-> _] | (i & Hi & Hc & ->)]; [by left|].
  right. exists i. apply (fair_elem_of _ _ _ Hfair) in Hi.
  repeat split; try done.
  rewrite (Hv i Hi). f_equal. unfold mesh_tag.
  unfold seed_candidate in Hc. apply andb_true_iff in Hc as [Hc _].
  by destruct (voxel_boundary _ _ _ _).
Qed.

(** The flood stage runs exactly when the recorded seed is a voxel
    other than voxel 0. *)
Lemma flood_stage_runs m R g1 fs :
  classify m R = Some (g1, fs) →
  (fs > 0)%Z ↔
  ∃ i, 0 < i ∧ fs = Z.of_nat i ∧ i < grid_size (dim g1) ∧
       candidate_in m g1 i = true.
Proof.
  intros Hc. split.
  - intros Hpos.
    destruct (classify_mesh_seed _ _ _ _ Hc) as [-> | (i & -> & Hi & Hcand & _)]; [lia|].
    exists i. split; [lia | done].
  - intros (i & Hi & -> & _). lia.
Qed.

Lemma classify_mesh_pre m R g1 fs :
  classify m R = Some (g1, fs) → (fs > 0)%Z →
  flood_pre g1 (Z.to_nat fs).
Proof.
  intros Hc Hpos.
  destruct (classify_mesh_seed _ _ _ _ Hc) as [-> | (i & -> & Hi & _ & Hu)]; [lia|].
  rewrite Nat2Z.id. split; [| |done].
  - by destruct (classify_mesh_spec _ _ _ _ Hc) as (g0 & _ & _ & Hlen & _).
  - intros j t Hj. by eapply classify_mesh_tags.
Qed.

(** The flood loop ends: it is given enough fuel. *)
Lemma flood_ends g seed :
  flood_pre g seed →
  ∃ s popped, flood_loop (flood_fuel g) (flood_init g seed) = Done s ∧
              flood_run g seed s ∧ flood_inv g seed popped s ∧
              fs_queue s = [] ∧ fs_n6 s = [].
Proof.
  intros Hpre.
  destruct (flood_loop_done g seed Hpre (flood_fuel g) [] (flood_init g seed))
    as (s & popped & Hloop & Hrun & Hinv & Hq & Hn).
  - by apply flood_inv_init.
  - unfold flood_measure, flood_fuel, flood_init. simpl.
    pose proof (unknowns_insert _ _ VOXEL_OUTSIDE (pre_seed _ _ Hpre) ltac:(done)).
    pose proof (unknowns_le (voxels g)). lia.
  - by exists s, popped.
Qed.

Lemma flood_Done g fs :
  (fs > 0)%Z → flood_pre g (Z.to_nat fs) →
  ∃ s popped, flood g fs = Done (fs_grid s) ∧
              flood_run g (Z.to_nat fs) s ∧ flood_inv g (Z.to_nat fs) popped s ∧
              fs_queue s = [] ∧ fs_n6 s = [].
Proof.
  intros Hpos Hpre.
  destruct (flood_ends _ _ Hpre) as (s & popped & Hloop & Hrest).
  exists s, popped. split; [|done].
  unfold flood. rewrite decide_True by done. by rewrite Hloop.
Qed.

Lemma flood_skipped g fs : ¬ (fs > 0)%Z → flood g fs = Done g.
Proof. intros Hneg. unfold flood. by rewrite decide_False. Qed.

Lemma voxelize_mesh_Done m R g1 fs g2 :
  classify m R = Some (g1, fs) → flood g1 fs = Done g2 →
  voxelize m R = Done (mark_inside (grid_size (dim g2)) g2).
Proof.
  intros Hc Hf. unfold voxelize_mesh. by rewrite Hc, Hf.
Qed.

(** C6.  Mesh variant, when the flood stage runs (the recorded seed is
    positive): the flood ends, and the voxels it leaves tagged
    [VOXEL_OUTSIDE] are exactly those joined to the seed by a path of
    6-connected face neighbours none of which the classification pass
    tagged [VOXEL_BOUNDARY]; the same holds for the grid that
    [voxelize] returns.  In every state of the flood a voxel tagged
    [VOXEL_BOUNDARY] by the classification pass still carries that tag,
    and every neighbour that the loop looks at lies inside the grid. *)
Theorem flood_marks_exactly_reachable m R g1 fs :
  classify m R = Some (g1, fs) → (fs > 0)%Z →
  voxels g1 !! Z.to_nat fs = Some VOXEL_UNKNOWN ∧
  (∃ g2, flood g1 fs = Done g2 ∧
     voxelize m R = Done (mark_inside (grid_size (dim g2)) g2) ∧
     (∀ x, voxels g2 !! x = Some VOXEL_OUTSIDE ↔ reachable g1 (Z.to_nat fs) x) ∧
     (∀ x, voxels (mark_inside (grid_size (dim g2)) g2) !! x = Some VOXEL_OUTSIDE ↔
           reachable g1 (Z.to_nat fs) x)) ∧
  (∀ s, flood_run g1 (Z.to_nat fs) s →
     (∀ x, voxels g1 !! x = Some VOXEL_BOUNDARY →
           voxels (fs_grid s) !! x = Some VOXEL_BOUNDARY) ∧
     (∀ nbr, nbr ∈ fs_n6 s → nbr < grid_size (dim g1))).
Proof.
  intros Hc Hpos.
  pose proof (classify_mesh_pre _ _ _ _ Hc Hpos) as Hpre.
  split; [apply Hpre|]. split.
  - destruct (flood_Done _ _ Hpos Hpre) as (s & popped & Hflood & Hrun & Hinv & Hq & Hn).
    exists (fs_grid s). split; [done|].
    split; [exact (voxelize_mesh_Done _ _ _ _ _ Hc Hflood)|].
    assert (Hexact : ∀ x, voxels (fs_grid s) !! x = Some VOXEL_OUTSIDE ↔
                          reachable g1 (Z.to_nat fs) x).
    { intros x. split.
      - intros Hx. apply (inv_sound _ _ _ _ Hinv), (inv_outside _ _ _ _ Hinv), Hx.
      - by eapply flood_inv_complete. }
    split; [done|]. intros x. rewrite <- Hexact, mark_inside_lookup.
    case_decide as Hu; [|done]. destruct Hu as [Hu _]. rewrite Hu. done.
  - intros s Hrun. destruct (flood_run_inv _ _ Hpre _ Hrun) as [popped Hinv]. split.
    + intros x Hx. destruct (inv_frame _ _ _ _ Hinv x) as [-> | [? _]]; [done | congruence].
    + intros nbr Hnbr. destruct (inv_n6 _ _ _ _ Hinv nbr Hnbr) as (i & _ & _ & Hlt & _).
      done.
Qed.

(** C8.  Mesh variant, when the flood stage runs: in every state of the
    flood no index has been pushed twice, the queue holds no index
    twice, every index in the queue has been pushed and is tagged
    [VOXEL_OUTSIDE] (so the [assert] at each pop holds), and a step
    pushes an index only when it finds it [VOXEL_UNKNOWN], after
    tagging it [VOXEL_OUTSIDE].  The loop ends with an empty queue in
    one of these states. *)
Theorem flood_queue_has_no_duplicates m R g1 fs :
  classify m R = Some (g1, fs) → (fs > 0)%Z →
  (∀ s, flood_run g1 (Z.to_nat fs) s →
     NoDup (fs_pushed s) ∧
     NoDup (fs_queue s) ∧
     (∀ i, i ∈ fs_queue s →
           i ∈ fs_pushed s ∧ voxels (fs_grid s) !! i = Some VOXEL_OUTSIDE) ∧
     flood_step s ≠ AssertFailed ∧
     (∀ s', flood_step s = Next s' →
        fs_pushed s' = fs_pushed s ∨
        ∃ nbr, fs_pushed s' = fs_pushed s ++ [nbr] ∧
               fs_queue s' = fs_queue s ++ [nbr] ∧
               voxels (fs_grid s) !! nbr = Some VOXEL_UNKNOWN ∧
               voxels (fs_grid s') !! nbr = Some VOXEL_OUTSIDE)) ∧
  (∃ s, flood_loop (flood_fuel g1) (flood_init g1 (Z.to_nat fs)) = Done s ∧
        flood_run g1 (Z.to_nat fs) s ∧ fs_queue s = []).
Proof.
  intros Hc Hpos.
  pose proof (classify_mesh_pre _ _ _ _ Hc Hpos) as Hpre.
  split.
  - intros s Hrun. destruct (flood_run_inv _ _ Hpre _ Hrun) as [popped Hinv].
    pose proof (inv_nodup _ _ _ _ Hinv) as Hnd.
    split; [done|].
    rewrite (inv_pushed _ _ _ _ Hinv) in Hnd.
    apply NoDup_app in Hnd as (_ & _ & Hndq). split; [done|]. split; [|split].
    + intros i Hi.
      assert (i ∈ fs_pushed s).
      { rewrite (inv_pushed _ _ _ _ Hinv). apply elem_of_app. by right. }
      split; [done|]. by apply (inv_outside _ _ _ _ Hinv).
    + destruct (flood_inv_progress _ _ Hpre _ _ Hinv) as [[-> _] | (s' & _ & -> & _)]; done.
    + intros s' Hstep. unfold flood_step, flood_pop, flood_visit in Hstep.
      repeat case_match; simplify_eq/=; try by left.
      right. eexists. repeat split; try done.
      rewrite list_lookup_insert_eq; [done|]. by eapply lookup_lt_Some.
  - destruct (flood_ends _ _ Hpre) as (s & popped & Hloop & Hrun & _ & Hq & _).
    by exists s.
Qed.

(** The flood stage returns, with the geometry and the size of the
    buffer it was given. *)
Lemma flood_returns m R g1 fs :
  classify m R = Some (g1, fs) →
  ∃ g2, flood g1 fs = Done g2 ∧ same_geometry g1 g2 ∧
        length (voxels g2) = length (voxels g1).
Proof.
  intros Hc. destruct (decide (fs > 0)%Z) as [Hpos | Hneg].
  - pose proof (classify_mesh_pre _ _ _ _ Hc Hpos) as Hpre.
    destruct (flood_Done _ _ Hpos Hpre) as (sf & popped & Hflood & Hrun & _).
    destruct (flood_steps_promoted _ _ Hrun) as [Hg [Hlen _]].
    exists (fs_grid sf). split; [done|]. split; [exact Hg|].
    rewrite Hlen. simpl. by rewrite length_insert.
  - exists g1. by rewrite (flood_skipped _ _ Hneg).
Qed.

(** C9.  Mesh variant: the flood and the residual pass leave the tag of
    a voxel alone or turn [VOXEL_UNKNOWN] into [VOXEL_OUTSIDE] or
    [VOXEL_INSIDE], step by step and as a whole.  A voxel tagged
    [VOXEL_BOUNDARY] by the classification pass, and a voxel tagged
    [VOXEL_OUTSIDE] in any state of the flood, carries that tag in the
    grid that [voxelize] returns; bounding box, edge length and
    dimensions are those set before the classification pass. *)
Theorem later_passes_only_promote m R g1 fs :
  classify m R = Some (g1, fs) →
  (∃ g0, grid_geometry (mesh_bbox m) R = Some g0 ∧ same_geometry g0 g1) ∧
  ∃ g2 g3, flood g1 fs = Done g2 ∧
    g3 = mark_inside (grid_size (dim g2)) g2 ∧
    voxelize m R = Done g3 ∧
    same_geometry g1 g2 ∧ same_geometry g1 g3 ∧
    promoted (voxels g1) (voxels g2) ∧
    promoted (voxels g2) (voxels g3) ∧
    (∀ i, voxels g1 !! i = Some VOXEL_BOUNDARY →
          voxels g2 !! i = Some VOXEL_BOUNDARY ∧
          voxels g3 !! i = Some VOXEL_BOUNDARY) ∧
    (∀ i, voxels g2 !! i = Some VOXEL_OUTSIDE →
          voxels g3 !! i = Some VOXEL_OUTSIDE) ∧
    ((fs > 0)%Z → ∀ s, flood_run g1 (Z.to_nat fs) s →
       same_geometry g1 (fs_grid s) ∧
       promoted (voxels g1) (voxels (fs_grid s)) ∧
       promoted (voxels (fs_grid s)) (voxels g2) ∧
       (∀ s', flood_next s s' →
              same_geometry (fs_grid s) (fs_grid s') ∧
              promoted (voxels (fs_grid s)) (voxels (fs_grid s'))) ∧
       (∀ i, voxels (fs_grid s) !! i = Some VOXEL_OUTSIDE →
             voxels g3 !! i = Some VOXEL_OUTSIDE)) ∧
    (∀ g index, same_geometry g (mark_inside_voxel g index) ∧
                promoted (voxels g) (voxels (mark_inside_voxel g index))).
Proof.
  intros Hc. split.
  { destruct (classify_mesh_spec _ _ _ _ Hc) as (g0 & Hgeo & Hg & _). by exists g0. }
  assert (Hres : ∀ g index, same_geometry g (mark_inside_voxel g index) ∧
                   promoted (voxels g) (voxels (mark_inside_voxel g index))).
  { intros g index. split; [apply mark_inside_voxel_geometry|].
    unfold mark_inside_voxel. case_decide as Hu; [|apply promoted_refl].
    split; simpl; [by rewrite length_insert|]. intros i.
    destruct (decide (i = index)) as [-> | Hne].
    - right. split; [done|]. right. rewrite list_lookup_insert_eq; [done|].
      by eapply lookup_lt_Some.
    - left. by rewrite list_lookup_insert_ne. }
  destruct (decide (fs > 0)%Z) as [Hpos | Hneg].
  - pose proof (classify_mesh_pre _ _ _ _ Hc Hpos) as Hpre.
    destruct (flood_Done _ _ Hpos Hpre) as (sf & popped & Hflood & Hrun & Hinv & Hq & Hn).
    pose proof (flood_init_promoted _ _ Hpre) as Hp0.
    assert (Hrun_p : ∀ s, flood_run g1 (Z.to_nat fs) s →
              same_geometry g1 (fs_grid s) ∧ promoted (voxels g1) (voxels (fs_grid s))).
    { intros s Hs. destruct (flood_steps_promoted _ _ Hs) as [Hg Hp].
      split; [exact Hg|]. by eapply promoted_trans. }
    destruct (Hrun_p _ Hrun) as [Hg2 Hp2].
    pose proof (mark_inside_geometry (grid_size (dim (fs_grid sf))) (fs_grid sf)) as Hg3.
    pose proof (mark_inside_promoted (grid_size (dim (fs_grid sf))) (fs_grid sf)) as Hp3.
    exists (fs_grid sf), (mark_inside (grid_size (dim (fs_grid sf))) (fs_grid sf)).
    split; [done|]. split; [done|].
    split; [exact (voxelize_mesh_Done _ _ _ _ _ Hc Hflood)|].
    split; [done|]. split; [by eapply same_geometry_trans|].
    split; [done|]. split; [done|]. split; [|split; [|split; [|done]]].
    + intros i Hi.
      assert (voxels (fs_grid sf) !! i = Some VOXEL_BOUNDARY)
        by by eapply promoted_keeps.
      split; [done|]. by eapply promoted_keeps.
    + intros i Hi. by eapply promoted_keeps.
    + intros _ s Hs. destruct (Hrun_p _ Hs) as [Hgs Hps].
      assert (Hto : rtc flood_next s sf).
      { eapply flood_steps_to_halt; [exact Hs | exact Hrun |].
        by apply flood_step_Halt. }
      destruct (flood_steps_promoted _ _ Hto) as [_ Hpsf].
      split; [done|]. split; [done|]. split; [done|]. split.
      * intros s' Hstep. by apply flood_step_promoted.
      * intros i Hi. eapply promoted_keeps; [exact Hp3| |done].
        by eapply promoted_keeps.
  - rewrite (flood_skipped _ _ Hneg).
    pose proof (mark_inside_geometry (grid_size (dim g1)) g1) as Hg3.
    pose proof (mark_inside_promoted (grid_size (dim g1)) g1) as Hp3.
    exists g1, (mark_inside (grid_size (dim g1)) g1).
    split; [done|]. split; [done|].
    split; [exact (voxelize_mesh_Done _ _ _ _ _ Hc (flood_skipped _ _ Hneg))|].
    split; [done|]. split; [done|].
    split; [apply promoted_refl|]. split; [done|]. split; [|split; [|split; [|done]]].
    + intros i Hi. split; [done|]. by eapply promoted_keeps.
    + intros i Hi. by eapply promoted_keeps.
    + intros Hpos. done.
Qed.

Lemma classify_mesh_defined m R g0 :
  grid_geometry (mesh_bbox m) R = Some g0 →
  ∃ g1 fs, classify m R = Some (g1, fs) ∧ same_geometry g0 g1.
Proof.
  intros Hgeo. unfold classify_mesh. rewrite Hgeo. simpl.
  destruct (PARALLEL_FOR schedule (grid_size (dim g0))
              (classify_mesh_voxel intersects_triangle (build_from_mesh_polys m))
              (g0, (-1)%Z)) as [g1 fs] eqn:Hpar.
  exists g1, fs. split; [done|].
  unfold PARALLEL_FOR in Hpar. by apply classify_fold in Hpar as (? & _).
Qed.

(** The mesh variant returns, with every voxel tagged. *)
Lemma voxelize_mesh_total m R g0 :
  grid_geometry (mesh_bbox m) R = Some g0 →
  ∃ g, voxelize m R = Done g ∧ same_geometry g0 g ∧
       length (voxels g) = grid_size (dim g) ∧
       ∀ i, i < grid_size (dim g) →
            ∃ t, voxels g !! i = Some t ∧ t ≠ VOXEL_UNKNOWN.
Proof.
  intros Hgeo.
  destruct (classify_mesh_defined _ _ _ Hgeo) as (g1 & fs & Hc & Hg01).
  destruct (flood_returns _ _ _ _ Hc) as (g2 & Hflood & Hg12 & Hlen2).
  destruct (classify_mesh_spec _ _ _ _ Hc) as (_ & _ & _ & Hlen & _).
  pose proof (mark_inside_geometry (grid_size (dim g2)) g2) as Hg23.
  pose proof (mark_inside_length (grid_size (dim g2)) g2) as Hlen3.
  pose proof Hg12 as (_ & _ & Hd2). pose proof Hg23 as (_ & _ & Hd3).
  eexists. split; [exact (voxelize_mesh_Done _ _ _ _ _ Hc Hflood)|].
  split; [eauto using same_geometry_trans|].
  split; [congruence|].
  intros i Hi.
  assert (Hlt : i < length (voxels (mark_inside (grid_size (dim g2)) g2))) by congruence.
  destruct (lookup_lt_is_Some_2 _ _ Hlt) as [t Ht].
  exists t. split; [done|]. intros ->.
  eapply mark_inside_classified; [|exact Ht]. congruence.
Qed.

End MeshPipeline.

(** ** The implicit-function variant *)

Section FunctionPipeline.

Variable f : vec3d → double.
Variable schedule : nat → list nat.
Hypothesis Hfair : fair schedule.

Lemma tag_of_flags_classified flags : tag_of_flags flags ≠ VOXEL_UNKNOWN.
Proof.
  destruct flags as [[[] []] []]; done.
Qed.

Lemma voxelize_function_spec volume R g0 :
  grid_geometry volume R = Some g0 →
  ∃ g, voxelize_function f schedule volume R = Done g ∧ same_geometry g0 g ∧
       length (voxels g) = grid_size (dim g) ∧
       ∀ i, i < grid_size (dim g) → voxels g !! i = Some (function_tag f g i).
Proof.
  intros Hgeo. unfold voxelize_function, PARALLEL_FOR. rewrite Hgeo.
  eexists. split; [done|].
  destruct (classify_function_fold f (schedule (grid_size (dim g0))) g0)
    as (Hg & Hlen & Hv).
  pose proof (grid_geometry_length _ _ _ Hgeo) as Hlen0.
  pose proof Hg as (_ & _ & Hd).
  split; [done|]. split; [congruence|].
  intros i Hi. rewrite Hv. rewrite decide_True.
  - by rewrite (function_tag_geometry f g0 _ i Hg).
  - rewrite Hd in Hi. split; [by apply fair_elem_of | lia].
Qed.

(** A double is positive, negative, zero or NaN; the three comparisons
    of the source are all false on NaN. *)
Lemma double_sign_cases (x : double) :
  (x = S754_nan ∧ flt fzero x = false ∧ flt x fzero = false ∧ feq x fzero = false) ∨
  (flt fzero x = true ∧ flt x fzero = false ∧ feq x fzero = false) ∨
  (flt fzero x = false ∧ flt x fzero = true ∧ feq x fzero = false) ∨
  (flt fzero x = false ∧ flt x fzero = false ∧ feq x fzero = true).
Proof.
  destruct x as [[]|[]| |[] m e]; compute; auto 10.
Qed.

Lemma corner_flags_fold g ijk l : ∀ positive negative zero,
  foldl (λ '(positive, negative, zero) off,
           let p := voxel_corner_xyz g ijk off in
           let fp := f p in
           (positive || flt fzero fp, negative || flt fp fzero, zero || feq fp fzero))
        (positive, negative, zero) l =
  (positive || existsb (λ off, flt fzero (f (voxel_corner_xyz g ijk off))) l,
   negative || existsb (λ off, flt (f (voxel_corner_xyz g ijk off)) fzero) l,
   zero || existsb (λ off, feq (f (voxel_corner_xyz g ijk off)) fzero) l).
Proof.
  induction l as [|a l IH]; intros positive negative zero; cbn [foldl existsb].
  - by rewrite !orb_false_r.
  - rewrite IH. by rewrite !orb_assoc.
Qed.

Lemma existsb_corners (P : nat → bool) :
  existsb P (seq 0 8) = true ↔ ∃ off, off < 8 ∧ P off = true.
Proof.
  rewrite existsb_exists. split; intros (off & Hoff & HP); exists off.
  - apply in_seq in Hoff. split; [lia | done].
  - split; [apply in_seq; lia | done].
Qed.

(** The tag of a voxel in terms of the values of [f] at its corners. *)
Lemma function_tag_spec g index :
  let v := corner_value f g index in
  let some_positive := ∃ off, off < 8 ∧ flt fzero (v off) = true in
  let some_negative := ∃ off, off < 8 ∧ flt (v off) fzero = true in
  let some_zero := ∃ off, off < 8 ∧ feq (v off) fzero = true in
  (function_tag f g index = VOXEL_OUTSIDE ↔
     some_positive ∧ ¬ some_negative ∧ ¬ some_zero) ∧
  (function_tag f g index = VOXEL_INSIDE ↔
     ¬ some_positive ∧ some_negative ∧ ¬ some_zero) ∧
  (function_tag f g index = VOXEL_BOUNDARY ↔
     ¬ (some_positive ∧ ¬ some_negative ∧ ¬ some_zero) ∧
     ¬ (¬ some_positive ∧ some_negative ∧ ¬ some_zero)).
Proof.
  intros v some_positive some_negative some_zero.
  unfold function_tag, corner_flags. rewrite corner_flags_fold, !orb_false_l.
  match goal with
  | |- context [tag_of_flags (?p, ?n, ?z)] =>
      set (bp := p); set (bn := n); set (bz := z)
  end.
  assert (Hp : bp = true ↔ some_positive) by apply existsb_corners.
  assert (Hn : bn = true ↔ some_negative) by apply existsb_corners.
  assert (Hz : bz = true ↔ some_zero) by apply existsb_corners.
  clearbody bp bn bz. unfold tag_of_flags.
  destruct bp, bn, bz; simpl;
    repeat split; intros; try done; try tauto;
    try (exfalso; intuition congruence).
  all: first [rewrite <- Hp | rewrite <- Hn | rewrite <- Hz]; done.
Qed.

(** Without NaN among the eight values, "some value is positive, none
    is negative and none is zero" says that all are positive. *)
Lemma all_positive_iff (v : nat → double) :
  (∀ off, off < 8 → v off ≠ S754_nan) →
  ((∃ off, off < 8 ∧ flt fzero (v off) = true) ∧
   ¬ (∃ off, off < 8 ∧ flt (v off) fzero = true) ∧
   ¬ (∃ off, off < 8 ∧ feq (v off) fzero = true)) ↔
  (∀ off, off < 8 → flt fzero (v off) = true).
Proof.
  intros Hnan. split.
  - intros (_ & Hneg & Hzero) off Hoff.
    destruct (double_sign_cases (v off)) as [(E & _) | [(E & _) | [(_ & E & _) | (_ & _ & E)]]].
    + by apply Hnan in E.
    + done.
    + exfalso. apply Hneg. by exists off.
    + exfalso. apply Hzero. by exists off.
  - intros Hall. split; [exists 0; split; [lia | apply Hall; lia]|].
    split; intros (off & Hoff & E); specialize (Hall off Hoff);
      destruct (double_sign_cases (v off)) as [(_ & ? & ? & ?) | [(? & ? & ?) | [(? & ? & ?) | (? & ? & ?)]]];
      congruence.
Qed.

Lemma all_negative_iff (v : nat → double) :
  (∀ off, off < 8 → v off ≠ S754_nan) →
  (¬ (∃ off, off < 8 ∧ flt fzero (v off) = true) ∧
   (∃ off, off < 8 ∧ flt (v off) fzero = true) ∧
   ¬ (∃ off, off < 8 ∧ feq (v off) fzero = true)) ↔
  (∀ off, off < 8 → flt (v off) fzero = true).
Proof.
  intros Hnan. split.
  - intros (Hpos & _ & Hzero) off Hoff.
    destruct (double_sign_cases (v off)) as [(E & _) | [(E & _) | [(_ & E & _) | (_ & _ & E)]]].
    + by apply Hnan in E.
    + exfalso. apply Hpos. by exists off.
    + done.
    + exfalso. apply Hzero. by exists off.
  - intros Hall. split; [|split; [exists 0; split; [lia | apply Hall; lia]|]];
      intros (off & Hoff & E); specialize (Hall off Hoff);
      destruct (double_sign_cases (v off)) as [(_ & ? & ? & ?) | [(? & ? & ?) | [(? & ? & ?) | (? & ? & ?)]]];
      congruence.
Qed.

(** C4, as the code has it.  Implicit-function variant: every voxel gets
    one of the tags [VOXEL_OUTSIDE], [VOXEL_INSIDE], [VOXEL_BOUNDARY],
    never [VOXEL_UNKNOWN].  The tag is [VOXEL_OUTSIDE] exactly when some
    of the eight corner values is positive and none is negative or
    zero, [VOXEL_INSIDE] exactly when some is negative and none is
    positive or zero, and [VOXEL_BOUNDARY] otherwise.  When none of the
    eight values is NaN this is the rule of the spec: all positive,
    all negative, anything else. *)
Theorem function_voxel_tag_by_signs volume R g0 :
  grid_geometry volume R = Some g0 →
  ∃ g, voxelize_function f schedule volume R = Done g ∧
    ∀ index, index < grid_size (dim g) →
      ∃ t, voxels g !! index = Some t ∧
        (t = VOXEL_OUTSIDE ∨ t = VOXEL_INSIDE ∨ t = VOXEL_BOUNDARY) ∧
        let v := corner_value f g index in
        let some_positive := ∃ off, off < 8 ∧ flt fzero (v off) = true in
        let some_negative := ∃ off, off < 8 ∧ flt (v off) fzero = true in
        let some_zero := ∃ off, off < 8 ∧ feq (v off) fzero = true in
        let all_positive := ∀ off, off < 8 → flt fzero (v off) = true in
        let all_negative := ∀ off, off < 8 → flt (v off) fzero = true in
        (t = VOXEL_OUTSIDE ↔ some_positive ∧ ¬ some_negative ∧ ¬ some_zero) ∧
        (t = VOXEL_INSIDE ↔ ¬ some_positive ∧ some_negative ∧ ¬ some_zero) ∧
        (t = VOXEL_BOUNDARY ↔
           ¬ (some_positive ∧ ¬ some_negative ∧ ¬ some_zero) ∧
           ¬ (¬ some_positive ∧ some_negative ∧ ¬ some_zero)) ∧
        ((∀ off, off < 8 → v off ≠ S754_nan) →
           (t = VOXEL_OUTSIDE ↔ all_positive) ∧
           (t = VOXEL_INSIDE ↔ all_negative) ∧
           (t = VOXEL_BOUNDARY ↔ ¬ all_positive ∧ ¬ all_negative)).
Proof.
  intros Hgeo.
  destruct (voxelize_function_spec _ _ _ Hgeo) as (g & Hvox & _ & _ & Hv).
  exists g. split; [done|]. intros index Hindex.
  exists (function_tag f g index). split; [by apply Hv|]. split.
  { unfold function_tag. generalize (corner_flags f g
      (deserialize_3D_index index (dim g).1.2 (dim g).2)).
    intros [[[] []] []]; simpl; auto. }
  intros v some_positive some_negative some_zero all_positive all_negative.
  destruct (function_tag_spec g index) as (Hout & Hin & Hbd).
  split; [exact Hout|]. split; [exact Hin|]. split; [exact Hbd|].
  intros Hnan.
  pose proof (all_positive_iff v Hnan) as Hp.
  pose proof (all_negative_iff v Hnan) as Hn.
  fold v in Hout, Hin, Hbd.
  fold some_positive some_negative some_zero all_positive in Hp.
  fold some_positive some_negative some_zero all_negative in Hn.
  fold some_positive some_negative some_zero in Hout, Hin, Hbd.
  rewrite Hout, Hin, Hbd, Hp, Hn. done.
Qed.

(** The implicit-function variant returns, with every voxel tagged. *)
Lemma voxelize_function_total volume R g0 :
  grid_geometry volume R = Some g0 →
  ∃ g, voxelize_function f schedule volume R = Done g ∧ same_geometry g0 g ∧
       length (voxels g) = grid_size (dim g) ∧
       ∀ i, i < grid_size (dim g) →
            ∃ t, voxels g !! i = Some t ∧ t ≠ VOXEL_UNKNOWN.
Proof.
  intros Hgeo.
  destruct (voxelize_function_spec _ _ _ Hgeo) as (g & Hvox & Hg & Hlen & Hv).
  exists g. repeat split; try done; try apply Hg.
  intros i Hi. eexists. split; [by apply Hv|]. apply tag_of_flags_classified.
Qed.

End FunctionPipeline.

(** ** Grid geometry *)

Section GridGeometryFacts.


Lemma grid_dim_Some b l d :
  grid_dim b l = Some d →
  (axis_count (delta_x b) l = Some (Z.of_nat d.1.1) ∧
   axis_count (delta_y b) l = Some (Z.of_nat d.1.2) ∧
   axis_count (delta_z b) l = Some (Z.of_nat d.2)) ∧
  (Z.of_nat (grid_size d) ≤ int_max)%Z.
Proof.
  unfold grid_dim. intros H.
  destruct (axis_count (delta_x b) l) as [d0|]; [|done].
  destruct (axis_count (delta_y b) l) as [d1|]; [|done].
  destruct (axis_count (delta_z b) l) as [d2|]; [|done].
  simpl in H. case_decide as Hr; [|done]. injection H as <-. simpl.
  destruct Hr as (? & ? & ? & ?).
  rewrite !Z2Nat.id by done. split; [done|].
  rewrite !Nat2Z.inj_mul, !Z2Nat.id by done. done.
Qed.

(** Division by an infinite edge length gives zero voxels. *)
Lemma axis_count_infinite_length extent :
  is_finite extent = true →
  axis_count extent (S754_infinity false) = Some 0%Z.
Proof.
  destruct extent as [s|s| |s m e]; try done.
Qed.

(** A zero extent divided by an edge length that is itself a quotient
    of zero has no count: the quotient is NaN. *)
Lemma axis_count_zero_extent (s s' : bool) (r : double) :
  axis_count (S754_zero s) (fdiv (S754_zero s') r) = None.
Proof.
  destruct r as [s''|s''| |s'' m e], s, s'; try destruct s''; done.
Qed.



Lemma fair_nil schedule : fair schedule → schedule 0 = [].
Proof. intros Hfair. apply Permutation_nil_r. apply Hfair. Qed.


End GridGeometryFacts.

(** ** Both variants: geometry, configuration, completeness *)

Section BothVariants.

Context {Mesh Triangle : Type}.
Variable mesh_bbox : Mesh → AABB.
Variable build_from_mesh_polys : Mesh → Octree Triangle.
Variable intersects_triangle : AABB → Triangle → bool.
Variable f : vec3d → double.
Variable schedule : nat → list nat.

Local Abbreviation voxelize_m :=
  (voxelize_mesh mesh_bbox build_from_mesh_polys intersects_triangle schedule).
Local Abbreviation voxelize_f := (voxelize_function f schedule).

(** C2, as the code has it.  Neither variant checks its configuration,
    and neither has a way to report an error.  With resolution 0 on a
    volume whose extents are finite and whose longest extent is
    positive, the edge length is [+infinity], every dimension is 0, an
    empty classification buffer is allocated and the call returns the
    grid.  With a volume of zero extent the quotient
    [extent / edge_length] is NaN for every resolution, the conversion
    [int(ceil(NaN))] is undefined, and nothing before it stops the
    call. *)
Theorem voxelize_has_no_configuration_check :
  fair schedule →
  (∀ b,
     is_finite (delta_x b) = true →
     is_finite (delta_y b) = true →
     is_finite (delta_z b) = true →
     is_finite (max_entry (delta b)) = true →
     flt fzero (max_entry (delta b)) = true →
     let empty_grid :=
       {| bbox := b; len := S754_infinity false; dim := (0, 0, 0); voxels := [] |} in
     grid_geometry b 0 = Some empty_grid ∧
     (∀ m, mesh_bbox m = b → voxelize_m m 0 = Done empty_grid) ∧
     voxelize_f b 0 = Done empty_grid) ∧
  (∀ b R s s',
     delta_x b = S754_zero s →
     max_entry (delta b) = S754_zero s' →
     grid_geometry b R = None ∧
     (∀ m, mesh_bbox m = b → voxelize_m m R = Undefined) ∧
     voxelize_f b R = Undefined).
Proof.
  intros Hfair. split.
  - intros b Hx Hy Hz HM Hpos empty_grid.
    assert (Hlen : edge_length b 0 = S754_infinity false).
    { unfold edge_length. destruct (max_entry (delta b)) as [[]|[]| |[] m e]; done. }
    assert (Hgeo : grid_geometry b 0 = Some empty_grid).
    { unfold grid_geometry, grid_dim. rewrite Hlen.
      by rewrite !axis_count_infinite_length. }
    split; [done|]. split.
    + intros m <-. unfold voxelize_mesh, classify_mesh, PARALLEL_FOR.
      rewrite Hgeo. simpl. by rewrite (fair_nil _ Hfair).
    + unfold voxelize_function, PARALLEL_FOR. rewrite Hgeo. simpl.
      by rewrite (fair_nil _ Hfair).
  - intros b R s s' Hx HM.
    assert (Hgeo : grid_geometry b R = None).
    { unfold grid_geometry, grid_dim, edge_length. rewrite HM, Hx.
      by rewrite axis_count_zero_extent. }
    split; [done|]. split.
    + intros m <-. unfold voxelize_mesh, classify_mesh. by rewrite Hgeo.
    + unfold voxelize_function. by rewrite Hgeo.
Qed.




End BothVariants.

(** ** Hexahedra as general polyhedra *)

Section HexahedraFacts.


















End HexahedraFacts.


(** ** The theorems at concrete inputs *)

Lemma fair_sequential : fair sequential.
Proof. intros size. reflexivity. Qed.

(** C1.  A 2x2x2 grid over the unit cube in which every voxel but the
    one at the min corner, voxel 0, meets the surface.  Voxel 0 lies on
    the shell and is not on the boundary, so the pass records it as the
    seed; the test [flood_seed > 0] then skips the flood, voxel 0 is
    never tagged [VOXEL_OUTSIDE], and the residual pass tags it
    [VOXEL_INSIDE]. *)
Theorem flood_skipped_for_seed_zero :
  let classified :=
    classify_mesh (λ _ : unit, unit_cube) (λ _, one_triangle)
      hit_away_from_origin sequential () 2 in
  let result :=
    voxelize_mesh (λ _ : unit, unit_cube) (λ _, one_triangle)
      hit_away_from_origin sequential () 2 in
  ∃ g1, classified = Some (g1, 0%Z) ∧
    dim g1 = (2, 2, 2) ∧
    voxels g1 = VOXEL_UNKNOWN :: replicate 7 VOXEL_BOUNDARY ∧
    seed_candidate hit_away_from_origin one_triangle g1 0 = true ∧
    flood g1 0 = Done g1 ∧
    ∃ g3, result = Done g3 ∧
      voxels g3 = VOXEL_INSIDE :: replicate 7 VOXEL_BOUNDARY.
Proof.
  eexists. split; [vm_compute; reflexivity|].
  split; [reflexivity|]. split; [reflexivity|].
  split; [vm_compute; reflexivity|]. split; [reflexivity|].
  eexists. split; [vm_compute; reflexivity|]. reflexivity.
Qed.

Lemma voxelize_resolution_zero_returns :
  let empty_grid :=
    {| bbox := unit_cube; len := S754_infinity false; dim := (0, 0, 0); voxels := [] |} in
  voxelize_mesh (λ _ : unit, unit_cube) (λ _, one_triangle)
    hit_away_from_origin sequential () 0 = Done empty_grid ∧
  voxelize_function plane sequential unit_cube 0 = Done empty_grid.
Proof. split; vm_compute; reflexivity. Qed.

Lemma voxelize_has_no_configuration_check_witness :
  fair sequential ∧
  grid_geometry unit_cube 0 =
    Some {| bbox := unit_cube; len := S754_infinity false; dim := (0, 0, 0); voxels := [] |} ∧
  grid_geometry single_point 4 = None.
Proof.
  pose proof (voxelize_has_no_configuration_check
                (λ _ : unit, unit_cube) (λ _, one_triangle) hit_away_from_origin
                plane sequential fair_sequential) as [Hzero Hflat].
  split; [exact fair_sequential|]. split.
  - apply (Hzero unit_cube); reflexivity.
  - apply (Hflat single_point 4%Z false false); reflexivity.
Defined.



(** [x_over_x] over the unit cube at resolution 1: four corners of the
    single voxel give NaN and four give 1.  No value is negative or
    zero, so the voxel is tagged [VOXEL_OUTSIDE], although not every
    value is positive and not every value is negative. *)
Lemma nan_corner_tagged_outside :
  ∃ g, voxelize_function x_over_x sequential unit_cube 1 = Done g ∧
    grid_size (dim g) = 1 ∧
    voxels g !! 0 = Some VOXEL_OUTSIDE ∧
    corner_value x_over_x g 0 0 = S754_nan ∧
    ¬ (∀ off, off < 8 → flt fzero (corner_value x_over_x g 0 off) = true) ∧
    ¬ (∀ off, off < 8 → flt (corner_value x_over_x g 0 off) fzero = true).
Proof.
  eexists. split; [vm_compute; reflexivity|].
  split; [reflexivity|]. split; [reflexivity|]. split; [reflexivity|].
  split; intros Hall.
  - specialize (Hall 0 ltac:(lia)). vm_compute in Hall. discriminate.
  - specialize (Hall 1 ltac:(lia)). vm_compute in Hall. discriminate.
Qed.

Lemma function_voxel_tag_by_signs_witness :
  fair sequential ∧
  ∃ g0, grid_geometry unit_cube 2 = Some g0 ∧
    ∃ g, voxelize_function plane sequential unit_cube 2 = Done g ∧
         voxels g !! 0 = Some VOXEL_BOUNDARY ∧ voxels g !! 7 = Some VOXEL_OUTSIDE.
Proof.
  split; [exact fair_sequential|].
  eexists. split; [vm_compute; reflexivity|].
  destruct (function_voxel_tag_by_signs plane sequential fair_sequential unit_cube 2 _
              ltac:(vm_compute; reflexivity)) as (g & Hg & _).
  exists g. split; [exact Hg|].
  vm_compute in Hg. injection Hg as <-. split; reflexivity.
Defined.



Lemma flood_marks_exactly_reachable_witness :
  fair sequential ∧
  ∃ g1 fs,
    classify_mesh (λ _ : unit, unit_cube) (λ _, one_triangle)
      hit_beyond_first_layer sequential () 2 = Some (g1, fs) ∧
    (fs > 0)%Z ∧
    voxels g1 !! Z.to_nat fs = Some VOXEL_UNKNOWN.
Proof.
  split; [exact fair_sequential|].
  eexists _, _. split; [vm_compute; reflexivity|]. split; [reflexivity|].
  refine (proj1 (flood_marks_exactly_reachable
            (λ _ : unit, unit_cube) (λ _, one_triangle) hit_beyond_first_layer
            sequential fair_sequential () 2 _ _ _ _)).
  - vm_compute. reflexivity.
  - reflexivity.
Defined.

Lemma flood_queue_has_no_duplicates_witness :
  fair sequential ∧
  ∃ g1 fs,
    classify_mesh (λ _ : unit, unit_cube) (λ _, one_triangle)
      hit_beyond_first_layer sequential () 2 = Some (g1, fs) ∧
    (fs > 0)%Z ∧
    ∃ s, flood_run g1 (Z.to_nat fs) s ∧ fs_queue s = [].
Proof.
  split; [exact fair_sequential|].
  eexists _, _. split; [vm_compute; reflexivity|]. split; [reflexivity|].
  destruct (flood_queue_has_no_duplicates
              (λ _ : unit, unit_cube) (λ _, one_triangle) hit_beyond_first_layer
              sequential fair_sequential () 2 _ _
              ltac:(vm_compute; reflexivity) ltac:(reflexivity))
    as [_ (s & _ & Hs & Hq)].
  exists s. split; [exact Hs | exact Hq].
Defined.

Lemma later_passes_only_promote_witness :
  fair sequential ∧
  ∃ g1 fs,
    classify_mesh (λ _ : unit, unit_cube) (λ _, one_triangle)
      hit_beyond_first_layer sequential () 2 = Some (g1, fs) ∧
    ∃ g2, flood g1 fs = Done g2 ∧ same_geometry g1 g2.
Proof.
  split; [exact fair_sequential|].
  eexists _, _. split; [vm_compute; reflexivity|].
  destruct (later_passes_only_promote
              (λ _ : unit, unit_cube) (λ _, one_triangle) hit_beyond_first_layer
              sequential fair_sequential () 2 _ _
              ltac:(vm_compute; reflexivity))
    as (_ & g2 & g3 & Hf & _ & _ & Hg & _).
  exists g2. split; [exact Hf | exact Hg].
Defined.

(** * Further properties *)

(** ** The mesh variant and the order of the tasks *)

Section MeshSchedules.

Context {Mesh Triangle : Type}.
Variable mesh_bbox : Mesh → AABB.
Variable build_from_mesh_polys : Mesh → Octree Triangle.
Variable intersects_triangle : AABB → Triangle → bool.

Local Abbreviation classify_by s :=
  (classify_mesh mesh_bbox build_from_mesh_polys intersects_triangle s).
Local Abbreviation voxelize_by s :=
  (voxelize_mesh mesh_bbox build_from_mesh_polys intersects_triangle s).
Local Abbreviation tag_of m := (mesh_tag intersects_triangle (build_from_mesh_polys m)).

Lemma voxel_grid_eq g g' :
  bbox g = bbox g' → len g = len g' → dim g = dim g' → voxels g = voxels g' →
  g = g'.
Proof. destruct g, g'. simpl. by intros -> -> -> ->. Qed.

(** After the pass the buffer lists the tags of the voxels in the order
    of their indices. *)
Lemma classify_mesh_voxels schedule m R g0 g1 fs :
  fair schedule →
  grid_geometry (mesh_bbox m) R = Some g0 →
  classify_by schedule m R = Some (g1, fs) →
  g1 = {| bbox := bbox g0; len := len g0; dim := dim g0;
          voxels := tag_of m g0 <$> seq 0 (grid_size (dim g0)) |}.
Proof.
  intros Hfair Hgeo Hc.
  destruct (classify_mesh_spec _ _ _ _ Hfair _ _ _ _ Hc)
    as (g0' & Hgeo' & Hg & Hlen & Hv & _).
  assert (g0' = g0) as -> by congruence.
  pose proof Hg as (Hb & Hl & Hd).
  apply voxel_grid_eq; simpl; try done.
  apply list_eq. intros i. rewrite list_lookup_fmap.
  destruct (decide (i < grid_size (dim g0))) as [Hi | Hi].
  - rewrite lookup_seq_lt by done. simpl.
    rewrite Hv by (by rewrite Hd). f_equal.
    by apply mesh_tag_geometry.
  - rewrite lookup_seq_ge by lia. simpl.
    apply lookup_ge_None_2. rewrite Hlen, Hd. lia.
Qed.

(** The loop over the reported elements (lines 73-78) sets [boundary]
    exactly when one of them meets the box of the voxel. *)
Lemma voxel_boundary_true (o : Octree Triangle) g ijk :
  voxel_boundary intersects_triangle o g ijk = true ↔
  ∃ id, id ∈ intersects_box o (voxel_bbox g ijk) ∧
        intersects_triangle (voxel_bbox g ijk) (items o id) = true.
Proof.
  unfold voxel_boundary. cbv zeta.
  set (voxel := voxel_bbox g ijk).
  assert (Hfold : ∀ l boundary,
            foldl (λ boundary id,
                     if intersects_triangle voxel (items o id) then true else boundary)
                  boundary l = true ↔
            boundary = true ∨
            ∃ id, id ∈ l ∧ intersects_triangle voxel (items o id) = true).
  { induction l as [|a l IH]; intros boundary; simpl.
    - split; [by left|]. intros [? | (id & Hin & _)]; [done|].
      by apply elem_of_nil in Hin.
    - rewrite IH. split.
      + intros [Hhit | (id & Hin & Hid)].
        * destruct (intersects_triangle voxel (items o a)) eqn:Ha.
          -- right. exists a. split; [by left | done].
          -- by left.
        * right. exists id. split; [by right | done].
      + intros [-> | (id & Hin & Hid)].
        * left. by destruct (intersects_triangle voxel (items o a)).
        * apply elem_of_cons in Hin as [-> | Hin].
          -- left. by rewrite Hid.
          -- right. by exists id. }
  rewrite Hfold. split; [intros [? | ?]; done | by right].
Qed.

(** X1.  Mesh variant: the grid that the classification pass leaves
    does not depend on the order in which the tasks of the parallel
    loop take effect.  Two fair schedules give the same geometry and
    the same buffer, in which a voxel is [VOXEL_BOUNDARY] exactly
    when some element reported by the octree for the box of the voxel
    meets this box, and [VOXEL_UNKNOWN] exactly when none does.  Only
    the recorded seed may differ. *)
Theorem classification_ignores_schedule s1 s2 m R g1 fs1 g2 fs2 :
  fair s1 → fair s2 →
  classify_by s1 m R = Some (g1, fs1) →
  classify_by s2 m R = Some (g2, fs2) →
  g1 = g2 ∧
  ∀ index, index < grid_size (dim g1) →
    let voxel := voxel_bbox g1 (deserialize_3D_index index (dim g1).1.2 (dim g1).2) in
    let hit := ∃ id, id ∈ intersects_box (build_from_mesh_polys m) voxel ∧
                     intersects_triangle voxel (items (build_from_mesh_polys m) id) = true in
    (voxels g1 !! index = Some VOXEL_BOUNDARY ↔ hit) ∧
    (voxels g1 !! index = Some VOXEL_UNKNOWN ↔ ¬ hit).
Proof.
  intros Hf1 Hf2 Hc1 Hc2.
  destruct (classify_mesh_spec _ _ _ _ Hf1 _ _ _ _ Hc1) as (g0 & Hgeo & _ & _ & Hv & _).
  split.
  { rewrite (classify_mesh_voxels _ _ _ _ _ _ Hf1 Hgeo Hc1).
    by rewrite (classify_mesh_voxels _ _ _ _ _ _ Hf2 Hgeo Hc2). }
  intros index Hi voxel hit. rewrite (Hv index Hi). unfold mesh_tag.
  pose proof (voxel_boundary_true (build_from_mesh_polys m) g1
                (deserialize_3D_index index (dim g1).1.2 (dim g1).2)) as Hiff.
  fold voxel in Hiff. fold hit in Hiff.
  destruct (voxel_boundary intersects_triangle (build_from_mesh_polys m) g1 _).
  - assert hit as Hhit by (by apply Hiff).
    split; [split; done|]. split; [done|]. intros Hnot. by destruct Hnot.
  - assert (¬ hit) as Hnot by (intros Hhit; by apply Hiff in Hhit).
    split; [split; done|]. split; done.
Qed.

(** What the flood leaves: a voxel is tagged [VOXEL_OUTSIDE] exactly
    when the flood ran and the voxel is joined to the seed; every other
    voxel keeps the tag of the classification pass. *)
Lemma flood_result schedule m R g1 fs :
  fair schedule →
  classify_by schedule m R = Some (g1, fs) →
  ∃ g2, flood g1 fs = Done g2 ∧
    voxelize_by schedule m R = Done (mark_inside (grid_size (dim g2)) g2) ∧
    same_geometry g1 g2 ∧
    length (voxels g2) = grid_size (dim g1) ∧
    (∀ i, voxels g2 !! i = Some VOXEL_OUTSIDE ↔
          (fs > 0)%Z ∧ reachable g1 (Z.to_nat fs) i) ∧
    (∀ i, voxels g2 !! i = Some VOXEL_OUTSIDE → voxels g1 !! i = Some VOXEL_UNKNOWN) ∧
    (∀ i, voxels g2 !! i ≠ Some VOXEL_OUTSIDE → voxels g2 !! i = voxels g1 !! i).
Proof.
  intros Hfair Hc.
  destruct (classify_mesh_spec _ _ _ _ Hfair _ _ _ _ Hc) as (g0 & _ & _ & Hlen & _).
  destruct (decide (fs > 0)%Z) as [Hpos | Hneg].
  - pose proof (classify_mesh_pre _ _ _ _ Hfair _ _ _ _ Hc Hpos) as Hpre.
    destruct (flood_Done _ _ Hpos Hpre) as (s & popped & Hflood & Hrun & Hinv & Hq & Hn).
    exists (fs_grid s). split; [done|].
    split; [exact (voxelize_mesh_Done _ _ _ _ _ _ _ _ _ Hc Hflood)|].
    split; [apply (inv_geometry _ _ _ _ Hinv)|].
    split; [apply (inv_length _ _ _ _ Hinv)|]. split; [|split].
    + intros i. split.
      * intros Hi. split; [done|].
        apply (inv_sound _ _ _ _ Hinv), (inv_outside _ _ _ _ Hinv), Hi.
      * intros [_ Hi]. by eapply flood_inv_complete.
    + intros i Hi. destruct (inv_frame _ _ _ _ Hinv i) as [Heq | [? _]]; [|done].
      rewrite Heq in Hi. by destruct (pre_tags _ _ Hpre i _ Hi).
    + intros i Hi. by destruct (inv_frame _ _ _ _ Hinv i) as [? | [_ ?]].
  - exists g1. rewrite (flood_skipped _ _ Hneg). split; [done|].
    split; [exact (voxelize_mesh_Done _ _ _ _ _ _ _ _ _ Hc (flood_skipped _ _ Hneg))|].
    assert (Hno : ∀ i, voxels g1 !! i ≠ Some VOXEL_OUTSIDE).
    { intros i Hi. by destruct (classify_mesh_tags _ _ _ _ Hfair _ _ _ _ _ _ Hc Hi). }
    split; [done|]. split; [done|]. split; [|split; [|done]].
    + intros i. split; [by intros ?%Hno | by intros [? _]].
    + by intros i ?%Hno.
Qed.

(** X2.  Mesh variant: the tags of the returned grid, in terms of the
    classification pass and of the seed it recorded.  A voxel is
    [VOXEL_BOUNDARY] exactly when the pass tagged it so;
    [VOXEL_OUTSIDE] exactly when the seed is positive and the voxel
    is joined to the seed by face neighbours off the boundary;
    [VOXEL_INSIDE] exactly when the pass left it [VOXEL_UNKNOWN] and
    the flood did not reach it. *)
Theorem voxelize_mesh_result_tags schedule m R g1 fs :
  fair schedule →
  classify_by schedule m R = Some (g1, fs) →
  ∃ g3, voxelize_by schedule m R = Done g3 ∧
    ∀ i, i < grid_size (dim g1) →
      (voxels g3 !! i = Some VOXEL_BOUNDARY ↔ voxels g1 !! i = Some VOXEL_BOUNDARY) ∧
      (voxels g3 !! i = Some VOXEL_OUTSIDE ↔
         (fs > 0)%Z ∧ reachable g1 (Z.to_nat fs) i) ∧
      (voxels g3 !! i = Some VOXEL_INSIDE ↔
         voxels g1 !! i = Some VOXEL_UNKNOWN ∧
         ¬ ((fs > 0)%Z ∧ reachable g1 (Z.to_nat fs) i)).
Proof.
  intros Hfair Hc.
  destruct (flood_result _ _ _ _ _ Hfair Hc)
    as (g2 & _ & Hvox & (_ & _ & Hd) & Hlen & Hout & Hwas & Hkeep).
  eexists. split; [exact Hvox|]. intros i Hi.
  rewrite !mark_inside_lookup, Hd. rewrite <- Hout.
  assert (is_Some (voxels g2 !! i)) as [t Ht] by (apply lookup_lt_is_Some_2; lia).
  destruct (decide (t = VOXEL_OUTSIDE)) as [-> | Hne].
  - rewrite Ht, (Hwas i Ht). rewrite decide_False by (intros [? _]; done).
    split; [done|]. split; [done|]. split; [done|]. by intros [_ ?].
  - assert (Hsame : voxels g1 !! i = Some t) by (rewrite <- Hkeep; congruence).
    destruct (classify_mesh_tags _ _ _ _ Hfair _ _ _ _ _ _ Hc Hsame) as [-> | ->].
    + rewrite decide_True by done. rewrite Ht, Hsame.
      split; [done|]. split; [done|]. split; [|done]. intros _. split; [done|]. done.
    + rewrite decide_False by (intros [? _]; congruence). rewrite Ht, Hsame.
      split; [done|]. split; [done|]. split; [done|]. by intros [? _].
Qed.

Lemma face_adjacent_sym d a b : face_adjacent d a b → face_adjacent d b a.
Proof.
  unfold face_adjacent. intros (Ha & Hb & Hadj). split; [done|]. split; [done|].
  destruct (decode d a) as [[i j] k], (decode d b) as [[i' j'] k']. lia.
Qed.

(** A path from a voxel that is not on the boundary can be walked back. *)
Lemma reachable_sym g a b :
  voxels g !! a ≠ Some VOXEL_BOUNDARY →
  reachable g a b → reachable g b a.
Proof.
  intros Ha Hreach. induction Hreach as [a | a y b [Hadj Hy] _ IH]; [apply rtc_refl|].
  eapply rtc_r; [by apply IH|]. split; [by apply face_adjacent_sym | done].
Qed.

(** X3.  Mesh variant: in the returned grid a voxel tagged
    [VOXEL_OUTSIDE] has no face neighbour tagged [VOXEL_INSIDE]; the
    two kinds of voxels are separated by [VOXEL_BOUNDARY] voxels. *)
Theorem outside_never_touches_inside schedule m R g3 a b :
  fair schedule →
  voxelize_by schedule m R = Done g3 →
  face_adjacent (dim g3) a b →
  voxels g3 !! a = Some VOXEL_OUTSIDE →
  voxels g3 !! b ≠ Some VOXEL_INSIDE.
Proof.
  intros Hfair Hvox Hadj Ha Hb.
  destruct (classify_by schedule m R) as [[g1 fs]|] eqn:Hc;
    [|by unfold voxelize_mesh in Hvox; rewrite Hc in Hvox].
  destruct (flood_result _ _ _ _ _ Hfair Hc)
    as (g2 & _ & Hvox' & (_ & _ & Hd) & Hlen & Hout & _ & Hkeep).
  rewrite Hvox' in Hvox. injection Hvox as <-.
  pose proof (mark_inside_geometry (grid_size (dim g2)) g2) as (_ & _ & Hd3).
  rewrite Hd3, Hd in Hadj.
  assert (Ha2 : voxels g2 !! a = Some VOXEL_OUTSIDE).
  { rewrite mark_inside_lookup in Ha. by case_decide. }
  assert (Hb2 : voxels g2 !! b = Some VOXEL_UNKNOWN).
  { rewrite mark_inside_lookup in Hb. case_decide as Hu; [by destruct Hu|].
    assert (voxels g2 !! b ≠ Some VOXEL_OUTSIDE) as Hno by congruence.
    rewrite (Hkeep b Hno) in Hb.
    by destruct (classify_mesh_tags _ _ _ _ Hfair _ _ _ _ _ _ Hc Hb). }
  assert (Hb1 : voxels g1 !! b = Some VOXEL_UNKNOWN)
    by (rewrite <- Hkeep; congruence).
  apply Hout in Ha2 as [Hpos Hreach].
  assert (voxels g2 !! b = Some VOXEL_OUTSIDE) as Hcontra; [|congruence].
  apply Hout. split; [done|]. eapply rtc_r; [exact Hreach|].
  split; [done | congruence].
Qed.

(** X4.  Mesh variant, when the test [flood_seed > 0] fails: the seed
    is [-1] (no candidate) or [0] (voxel 0 was the candidate), the
    queue loop is not entered, and the returned grid has no
    [VOXEL_OUTSIDE] voxel at all: every voxel off the boundary is
    tagged [VOXEL_INSIDE]. *)
Theorem skipped_flood_leaves_no_outside schedule m R g1 fs :
  fair schedule →
  classify_by schedule m R = Some (g1, fs) →
  ¬ (fs > 0)%Z →
  (fs = (-1)%Z ∨ fs = 0%Z) ∧
  ∃ g3, voxelize_by schedule m R = Done g3 ∧
    ∀ i, i < grid_size (dim g1) →
      voxels g3 !! i ≠ Some VOXEL_OUTSIDE ∧
      (voxels g1 !! i = Some VOXEL_UNKNOWN → voxels g3 !! i = Some VOXEL_INSIDE) ∧
      (voxels g1 !! i = Some VOXEL_BOUNDARY → voxels g3 !! i = Some VOXEL_BOUNDARY).
Proof.
  intros Hfair Hc Hneg. split.
  { destruct (classify_mesh_seed _ _ _ _ Hfair _ _ _ _ Hc) as [-> | (i & -> & _)];
      [by left | right; lia]. }
  eexists. split; [exact (voxelize_mesh_Done _ _ _ _ _ _ _ _ _ Hc (flood_skipped _ _ Hneg))|].
  intros i Hi. rewrite mark_inside_lookup.
  destruct (classify_mesh_spec _ _ _ _ Hfair _ _ _ _ Hc) as (_ & _ & _ & Hlen & _).
  assert (is_Some (voxels g1 !! i)) as [t Ht] by (apply lookup_lt_is_Some_2; lia).
  destruct (classify_mesh_tags _ _ _ _ Hfair _ _ _ _ _ _ Hc Ht) as [-> | ->]; rewrite Ht.
  - rewrite decide_True by done. done.
  - rewrite decide_False by (intros [? _]; done). done.
Qed.

(** X5.  Mesh variant: [flood_seed] is written by every task that
    finds a candidate, so its final value depends on the schedule.
    When two schedules record positive seeds that are joined by face
    neighbours off the boundary, the two runs return the same
    grid. *)
Theorem seed_race_is_harmless_in_one_region s1 s2 m R g1 fs1 g2 fs2 :
  fair s1 → fair s2 →
  classify_by s1 m R = Some (g1, fs1) →
  classify_by s2 m R = Some (g2, fs2) →
  (fs1 > 0)%Z → (fs2 > 0)%Z →
  reachable g1 (Z.to_nat fs1) (Z.to_nat fs2) →
  voxelize_by s1 m R = voxelize_by s2 m R.
Proof.
  intros Hf1 Hf2 Hc1 Hc2 Hp1 Hp2 Hreach.
  destruct (classify_mesh_spec _ _ _ _ Hf1 _ _ _ _ Hc1) as (g0 & Hgeo & _).
  assert (g2 = g1) as ->.
  { rewrite (classify_mesh_voxels _ _ _ _ _ _ Hf1 Hgeo Hc1).
    by rewrite (classify_mesh_voxels _ _ _ _ _ _ Hf2 Hgeo Hc2). }
  destruct (flood_result _ _ _ _ _ Hf1 Hc1)
    as (r1 & _ & -> & (Hb1 & Hl1 & Hd1) & _ & Hout1 & _ & Hkeep1).
  destruct (flood_result _ _ _ _ _ Hf2 Hc2)
    as (r2 & _ & -> & (Hb2 & Hl2 & Hd2) & _ & Hout2 & _ & Hkeep2).
  pose proof (pre_seed _ _ (classify_mesh_pre _ _ _ _ Hf1 _ _ _ _ Hc1 Hp1)) as Hs1.
  assert (Hback : reachable g1 (Z.to_nat fs2) (Z.to_nat fs1))
    by (apply reachable_sym; [congruence | done]).
  assert (Hregion : ∀ i, voxels r1 !! i = Some VOXEL_OUTSIDE ↔
                         voxels r2 !! i = Some VOXEL_OUTSIDE).
  { intros i. rewrite Hout1, Hout2. split; intros [_ Hi]; (split; [done|]).
    - by eapply rtc_trans.
    - by eapply rtc_trans. }
  assert (r1 = r2) as ->; [|done].
  apply voxel_grid_eq; try congruence.
  apply list_eq. intros i.
  destruct (decide (voxels r1 !! i = Some VOXEL_OUTSIDE)) as [Ho | Hno].
  - rewrite Ho. symmetry. by apply Hregion.
  - rewrite (Hkeep1 i Hno). symmetry. apply Hkeep2. by rewrite <- Hregion.
Qed.

(** With the tasks in the order of the indices, the seed is the
    candidate of largest index. *)
Lemma last_candidate_seq (o : Octree Triangle) g n :
  (last_candidate intersects_triangle o g (-1) (seq 0 n) = (-1)%Z ∧
   ∀ i, i < n → seed_candidate intersects_triangle o g i = false) ∨
  (∃ i, i < n ∧ seed_candidate intersects_triangle o g i = true ∧
        last_candidate intersects_triangle o g (-1) (seq 0 n) = Z.of_nat i ∧
        ∀ j, i < j < n → seed_candidate intersects_triangle o g j = false).
Proof.
  induction n as [|n IH].
  - left. split; [done|]. intros i ?. lia.
  - rewrite seq_S. unfold last_candidate in *. rewrite foldl_snoc. simpl.
    destruct (seed_candidate intersects_triangle o g n) eqn:Hn.
    + right. exists n. split; [lia|]. split; [done|]. split; [done|].
      intros j ?. lia.
    + destruct IH as [[Heq Hno] | (i & Hi & Hc & Heq & Hlast)].
      * left. split; [done|]. intros i Hi.
        destruct (decide (i = n)) as [-> | ?]; [done | apply Hno; lia].
      * right. exists i. split; [lia|]. split; [done|]. split; [done|].
        intros j Hj. destruct (decide (j = n)) as [-> | ?]; [done | apply Hlast; lia].
Qed.

(** X6.  Mesh variant, tasks run in the order of the indices: the
    seed is the candidate of largest index (a voxel off the boundary
    with a zero coordinate), or [-1] when there is none.  The flood
    then runs exactly when some voxel other than voxel 0 is a
    candidate. *)
Theorem sequential_seed_is_the_last_candidate m R g1 fs :
  classify_by sequential m R = Some (g1, fs) →
  let candidate := seed_candidate intersects_triangle (build_from_mesh_polys m) g1 in
  let size := grid_size (dim g1) in
  ((fs = (-1)%Z ∧ ∀ i, i < size → candidate i = false) ∨
   (∃ i, fs = Z.of_nat i ∧ i < size ∧ candidate i = true ∧
         ∀ j, i < j < size → candidate j = false)) ∧
  ((fs > 0)%Z ↔ ∃ i, 0 < i < size ∧ candidate i = true).
Proof.
  intros Hc candidate size.
  assert (Hfair : fair sequential) by (intros n; reflexivity).
  destruct (classify_mesh_spec _ _ _ _ Hfair _ _ _ _ Hc) as (_ & _ & _ & _ & _ & Hfs).
  fold size in Hfs. unfold sequential in Hfs.
  destruct (last_candidate_seq (build_from_mesh_polys m) g1 size)
    as [[Heq Hno] | (i & Hi & Hcand & Heq & Hlast)]; rewrite Heq in Hfs.
  - split; [by left|]. split; [lia|].
    intros (i & Hi & Hcand). unfold candidate in Hcand.
    rewrite Hno in Hcand by lia. done.
  - split; [right; by exists i|]. split.
    + intros Hpos. exists i. split; [lia | done].
    + intros (j & Hj & Hcj). destruct (decide (i < j)) as [Hlt | ?]; [|lia].
      unfold candidate in Hcj. rewrite Hlast in Hcj by lia. done.
Qed.

(** A step of the flood appends the indices it pushes, and each push
    uses up one [VOXEL_UNKNOWN] voxel. *)
Lemma flood_next_account s s' :
  flood_next s s' →
  ∃ k, fs_pushed s' = fs_pushed s ++ k ∧
       unknowns (voxels (fs_grid s')) + length k = unknowns (voxels (fs_grid s)).
Proof.
  unfold flood_next, flood_step, flood_pop, flood_visit. intros Hstep.
  destruct (fs_n6 s) as [|nbr rest].
  - destruct (fs_queue s) as [|index q]; [done|].
    case_decide; [|done]. injection Hstep as <-. exists []. simpl.
    by rewrite app_nil_r, Nat.add_0_r.
  - injection Hstep as <-. case_decide as Hnbr; simpl.
    + exists [nbr]. split; [done|]. simpl.
      pose proof (unknowns_insert _ _ VOXEL_OUTSIDE Hnbr ltac:(done)). lia.
    + exists []. by rewrite app_nil_r, Nat.add_0_r.
Qed.

Lemma flood_steps_account s s' :
  rtc flood_next s s' →
  ∃ k, fs_pushed s' = fs_pushed s ++ k ∧
       unknowns (voxels (fs_grid s')) + length k = unknowns (voxels (fs_grid s)).
Proof.
  induction 1 as [s | s1 s2 s3 Hstep _ (k2 & Hp2 & Hu2)].
  - exists []. by rewrite app_nil_r, Nat.add_0_r.
  - destruct (flood_next_account _ _ Hstep) as (k1 & Hp1 & Hu1).
    exists (k1 ++ k2). rewrite Hp2, Hp1, length_app, app_assoc. split; [done | lia].
Qed.

(** X7.  Mesh variant, when the flood stage runs: the loop ends with
    an empty queue, and the indices pushed on the queue, the seed
    first, are without repetition exactly the voxels tagged
    [VOXEL_OUTSIDE] at the end.  Each push used up one
    [VOXEL_UNKNOWN] voxel of the classification pass, so there are
    at most as many pushes as voxels. *)
Theorem flood_queues_each_outside_voxel_once schedule m R g1 fs :
  fair schedule →
  classify_by schedule m R = Some (g1, fs) →
  (fs > 0)%Z →
  ∃ s, flood g1 fs = Done (fs_grid s) ∧
    flood_run g1 (Z.to_nat fs) s ∧
    fs_queue s = [] ∧
    NoDup (fs_pushed s) ∧
    head (fs_pushed s) = Some (Z.to_nat fs) ∧
    (∀ i, i ∈ fs_pushed s ↔ voxels (fs_grid s) !! i = Some VOXEL_OUTSIDE) ∧
    length (fs_pushed s) + unknowns (voxels (fs_grid s)) = unknowns (voxels g1) ∧
    length (fs_pushed s) ≤ grid_size (dim g1).
Proof.
  intros Hfair Hc Hpos.
  pose proof (classify_mesh_pre _ _ _ _ Hfair _ _ _ _ Hc Hpos) as Hpre.
  destruct (flood_Done _ _ Hpos Hpre) as (s & popped & Hflood & Hrun & Hinv & Hq & Hn).
  exists s. split; [done|]. split; [done|]. split; [done|].
  split; [apply Hinv|].
  destruct (flood_steps_account _ _ Hrun) as (k & Hpushed & Hcount).
  simpl in Hpushed, Hcount.
  pose proof (unknowns_insert _ _ VOXEL_OUTSIDE (pre_seed _ _ Hpre) ltac:(done)) as Hseed.
  split; [by rewrite Hpushed|].
  split; [intros i; symmetry; apply (inv_outside _ _ _ _ Hinv)|].
  assert (Hlen : length (fs_pushed s) + unknowns (voxels (fs_grid s)) =
                 unknowns (voxels g1)).
  { rewrite Hpushed. simpl. lia. }
  split; [done|].
  pose proof (unknowns_le (voxels g1)) as Hle.
  rewrite (pre_length _ _ Hpre) in Hle. lia.
Qed.

(** X15.  Mesh variant, any fair schedule: the seed stays [-1] exactly
    when no voxel is a candidate.  Otherwise it is the index of a
    voxel of the grid that the pass left [VOXEL_UNKNOWN] and that has
    a zero coordinate: only the three faces of the grid through its
    min corner provide seeds. *)
Theorem recorded_seed_is_on_a_min_face schedule m R g1 fs :
  fair schedule →
  classify_by schedule m R = Some (g1, fs) →
  (fs = (-1)%Z ↔
     ∀ i, i < grid_size (dim g1) →
          seed_candidate intersects_triangle (build_from_mesh_polys m) g1 i = false) ∧
  (fs ≠ (-1)%Z →
     ∃ i, fs = Z.of_nat i ∧ i < grid_size (dim g1) ∧
          voxels g1 !! i = Some VOXEL_UNKNOWN ∧
          let '(x, y, z) := deserialize_3D_index i (dim g1).1.2 (dim g1).2 in
          x = 0 ∨ y = 0 ∨ z = 0).
Proof.
  intros Hfair Hc.
  destruct (classify_mesh_spec _ _ _ _ Hfair _ _ _ _ Hc) as (_ & _ & _ & _ & _ & Hfs).
  destruct (last_candidate_cases intersects_triangle (build_from_mesh_polys m) g1
              (schedule (grid_size (dim g1))) (-1)%Z)
    as [[Heq Hno] | (i & Hi & Hcand & Heq)]; rewrite Heq in Hfs.
  - split; [|done]. split; [|done].
    intros _ i Hi. apply Hno. by apply fair_elem_of.
  - apply (fair_elem_of _ _ _ Hfair) in Hi. split.
    + split; [lia|]. intros Hno. rewrite Hno in Hcand by done. done.
    + intros _. exists i. split; [done|]. split; [done|].
      destruct (classify_mesh_seed _ _ _ _ Hfair _ _ _ _ Hc)
        as [-> | (i' & -> & _ & _ & Hu)]; [lia|].
      assert (i' = i) as -> by lia. split; [done|].
      unfold seed_candidate in Hcand. apply andb_true_iff in Hcand as [_ Hshell].
      destruct (deserialize_3D_index i (dim g1).1.2 (dim g1).2) as [[x y] z].
      unfold on_shell in Hshell.
      apply orb_true_iff in Hshell as [Hshell | Hz].
      * apply orb_true_iff in Hshell as [Hx | Hy].
        -- left. by apply bool_decide_eq_true in Hx.
        -- right. left. by apply bool_decide_eq_true in Hy.
      * right. right. by apply bool_decide_eq_true in Hz.
Qed.

End MeshSchedules.

(** ** The implicit-function variant: order of the tasks and sign of [f] *)

Section FunctionSchedules.

(** After the pass the buffer lists the tags of the voxels in the order
    of their indices. *)
Lemma voxelize_function_voxels f schedule volume R g0 :
  fair schedule →
  grid_geometry volume R = Some g0 →
  voxelize_function f schedule volume R =
    Done {| bbox := bbox g0; len := len g0; dim := dim g0;
            voxels := function_tag f g0 <$> seq 0 (grid_size (dim g0)) |}.
Proof.
  intros Hfair Hgeo.
  destruct (voxelize_function_spec f schedule Hfair volume R g0 Hgeo)
    as (g & Hvox & Hg & Hlen & Hv).
  rewrite Hvox. f_equal.
  pose proof Hg as (Hb & Hl & Hd).
  apply voxel_grid_eq; simpl; try done.
  apply list_eq. intros i. rewrite list_lookup_fmap.
  destruct (decide (i < grid_size (dim g0))) as [Hi | Hi].
  - rewrite lookup_seq_lt by done. simpl.
    rewrite Hv by (by rewrite Hd). f_equal. symmetry.
    by apply function_tag_geometry.
  - rewrite lookup_seq_ge by lia. simpl.
    apply lookup_ge_None_2. rewrite Hlen, Hd. lia.
Qed.

(** X8.  Implicit-function variant: the result does not depend on the
    order in which the tasks of the parallel loop take effect; this
    includes the case in which the geometry is undefined. *)
Theorem function_variant_ignores_schedule f s1 s2 volume R :
  fair s1 → fair s2 →
  voxelize_function f s1 volume R = voxelize_function f s2 volume R.
Proof.
  intros Hf1 Hf2.
  destruct (grid_geometry volume R) as [g0|] eqn:Hgeo.
  - rewrite (voxelize_function_voxels f s1 _ _ _ Hf1 Hgeo).
    by rewrite (voxelize_function_voxels f s2 _ _ _ Hf2 Hgeo).
  - unfold voxelize_function. by rewrite Hgeo.
Qed.

(** The comparisons of the source under a change of sign. *)
Lemma fneg_signs (x : double) :
  flt fzero (fneg x) = flt x fzero ∧
  flt (fneg x) fzero = flt fzero x ∧
  feq (fneg x) fzero = feq x fzero.
Proof.
  destruct x as [[]|[]| |[] m e]; done.
Qed.

Lemma existsb_pointwise {A} (P Q : A → bool) l :
  (∀ x, P x = Q x) → existsb P l = existsb Q l.
Proof.
  intros HPQ. induction l as [|x l IH]; [done|]. simpl. by rewrite HPQ, IH.
Qed.

Lemma corner_flags_fneg f g ijk :
  corner_flags (λ p, fneg (f p)) g ijk =
  let '(positive, negative, zero) := corner_flags f g ijk in
  (negative, positive, zero).
Proof.
  unfold corner_flags. rewrite (corner_flags_fold f).
  etrans; [apply (corner_flags_fold (λ p, fneg (f p)))|].
  rewrite !orb_false_l.
  f_equal; [f_equal|]; apply existsb_pointwise; intros off;
    destruct (fneg_signs (f (voxel_corner_xyz g ijk off))) as (? & ? & ?); done.
Qed.

Lemma function_tag_fneg f g index :
  function_tag (λ p, fneg (f p)) g index = swap_tag (function_tag f g index).
Proof.
  unfold function_tag. rewrite corner_flags_fneg.
  by destruct (corner_flags f g _) as [[[] []] []].
Qed.

(** X9.  Implicit-function variant: voxelizing [-f] instead of [f]
    gives the same grid with [VOXEL_INSIDE] and [VOXEL_OUTSIDE]
    exchanged; [VOXEL_BOUNDARY] voxels stay as they are. *)
Theorem negated_function_swaps_inside_and_outside f schedule volume R g :
  fair schedule →
  voxelize_function f schedule volume R = Done g →
  voxelize_function (λ p, fneg (f p)) schedule volume R =
    Done {| bbox := bbox g; len := len g; dim := dim g;
            voxels := swap_tag <$> voxels g |}.
Proof.
  intros Hfair Hvox.
  destruct (grid_geometry volume R) as [g0|] eqn:Hgeo;
    [|unfold voxelize_function in Hvox; by rewrite Hgeo in Hvox].
  rewrite (voxelize_function_voxels f schedule _ _ _ Hfair Hgeo) in Hvox.
  injection Hvox as <-.
  rewrite (voxelize_function_voxels _ schedule _ _ _ Hfair Hgeo). simpl.
  f_equal. f_equal. rewrite <- list_fmap_compose.
  apply list_fmap_ext. intros i x _. simpl. apply function_tag_fneg.
Qed.

End FunctionSchedules.

(** ** A box without extent along an axis *)

Section FlatBoxes.

Context {Mesh Triangle : Type}.
Variable mesh_bbox : Mesh → AABB.
Variable build_from_mesh_polys : Mesh → Octree Triangle.
Variable intersects_triangle : AABB → Triangle → bool.
Variable f : vec3d → double.
Variable schedule : nat → list nat.
Hypothesis Hfair : fair schedule.

Lemma axis_count_of_zero (s : bool) (l : double) z :
  axis_count (S754_zero s) l = Some z → z = 0%Z.
Proof.
  destruct l as [s'|s'| |s' m e], s; try destruct s'; compute; congruence.
Qed.

Lemma grid_size_flat d :
  d.1.1 = 0 ∨ d.1.2 = 0 ∨ d.2 = 0 → grid_size d = 0.
Proof.
  destruct d as [[nx ny] nz]. unfold grid_size. simpl. lia.
Qed.

(** X10.  Both variants: when the box has extent zero along an axis
    and the grid geometry is defined, the voxel count along that
    axis is 0, the buffer has size 0, and both variants return the
    grid with the empty buffer. *)
Theorem flat_box_has_no_voxels m R g0 :
  grid_geometry (mesh_bbox m) R = Some g0 →
  (∃ s, delta_x (mesh_bbox m) = S754_zero s ∨
        delta_y (mesh_bbox m) = S754_zero s ∨
        delta_z (mesh_bbox m) = S754_zero s) →
  grid_size (dim g0) = 0 ∧
  ∃ g, voxelize_mesh mesh_bbox build_from_mesh_polys intersects_triangle schedule m R
         = Done g ∧
       voxelize_function f schedule (mesh_bbox m) R = Done g ∧
       g = g0 ∧ voxels g = [].
Proof.
  intros Hgeo (s & Hflat).
  destruct (grid_geometry_Some _ _ _ Hgeo) as (Hb & Hl & Hdim & Hvox).
  destruct (grid_dim_Some _ _ _ Hdim) as ((Hx & Hy & Hz) & _).
  assert (Hsize : grid_size (dim g0) = 0).
  { apply grid_size_flat.
    destruct Hflat as [E | [E | E]]; rewrite E in *;
      [left | right; left | right; right];
      match goal with
      | H : axis_count (S754_zero s) _ = Some _ |- _ =>
          apply axis_count_of_zero in H; lia
      end. }
  split; [done|].
  assert (Hempty : ∀ g, same_geometry g0 g → length (voxels g) = grid_size (dim g) →
                        g = g0 ∧ voxels g = []).
  { intros g (Eb & El & Ed) Hlen.
    assert (voxels g = []) as Hnil.
    { apply nil_length_inv. rewrite Hlen, Ed. done. }
    split; [|done]. apply voxel_grid_eq; try done.
    by rewrite Hnil, Hvox, Hsize. }
  destruct (voxelize_mesh_total mesh_bbox build_from_mesh_polys intersects_triangle
              schedule Hfair m R g0 Hgeo) as (g & Hm & Hg & Hlen & _).
  destruct (voxelize_function_total f schedule Hfair _ R g0 Hgeo)
    as (g' & Hf & Hg' & Hlen' & _).
  destruct (Hempty g Hg Hlen) as [-> Hnil].
  destruct (Hempty g' Hg' Hlen') as [-> _].
  by exists g0.
Qed.

End FlatBoxes.

(** ** Hexahedra as general polyhedra: identifiers and flags *)

Section HexahedraSlots.









End HexahedraSlots.

(** ** Hexahedra as general polyhedra: more hexahedra at the end *)

Section HexahedraAppended.






End HexahedraAppended.


(** ** Hexahedra as general polyhedra: the order of the faces *)

Section HexahedraOrder.







End HexahedraOrder.

(** ** The further theorems at concrete inputs *)

Lemma fair_descending : fair descending.
Proof.
  intros [|n]; [done|]. unfold descending. cbn [seq].
  constructor. apply reverse_Permutation.
Qed.

(** The 2x2x2 grid over the unit cube whose second layer in [x] meets
    the surface: in the order of the indices the seed is voxel 3, in the
    order of [descending] it is voxel 1. *)
Lemma classification_ignores_schedule_witness :
  fair sequential ∧ fair descending ∧
  ∃ g1 fs1 g2 fs2,
    classify_mesh (λ _ : unit, unit_cube) (λ _, one_triangle)
      hit_beyond_first_layer sequential () 2 = Some (g1, fs1) ∧
    classify_mesh (λ _ : unit, unit_cube) (λ _, one_triangle)
      hit_beyond_first_layer descending () 2 = Some (g2, fs2) ∧
    fs1 ≠ fs2 ∧ g1 = g2.
Proof.
  split; [exact fair_sequential|]. split; [exact fair_descending|].
  eexists _, _, _, _.
  split; [vm_compute; reflexivity|]. split; [vm_compute; reflexivity|].
  split; [done|].
  exact (proj1 (classification_ignores_schedule
                  (λ _ : unit, unit_cube) (λ _, one_triangle) hit_beyond_first_layer
                  sequential descending () 2 _ _ _ _ fair_sequential fair_descending
                  ltac:(vm_compute; reflexivity) ltac:(vm_compute; reflexivity))).
Defined.

Lemma voxelize_mesh_result_tags_witness :
  fair sequential ∧
  ∃ g1 fs,
    classify_mesh (λ _ : unit, unit_cube) (λ _, one_triangle)
      hit_beyond_first_layer sequential () 2 = Some (g1, fs) ∧
    ∃ g3, voxelize_mesh (λ _ : unit, unit_cube) (λ _, one_triangle)
            hit_beyond_first_layer sequential () 2 = Done g3.
Proof.
  split; [exact fair_sequential|].
  eexists _, _. split; [vm_compute; reflexivity|].
  destruct (voxelize_mesh_result_tags
              (λ _ : unit, unit_cube) (λ _, one_triangle) hit_beyond_first_layer
              sequential () 2 _ _ fair_sequential ltac:(vm_compute; reflexivity))
    as (g3 & Hv & _).
  exists g3. exact Hv.
Defined.

(** Voxel 3 is flooded; its neighbour 7 in [x] lies on the surface. *)
Lemma outside_never_touches_inside_witness :
  fair sequential ∧
  ∃ g3, voxelize_mesh (λ _ : unit, unit_cube) (λ _, one_triangle)
          hit_beyond_first_layer sequential () 2 = Done g3 ∧
    face_adjacent (dim g3) 3 7 ∧
    voxels g3 !! 3 = Some VOXEL_OUTSIDE ∧
    voxels g3 !! 7 ≠ Some VOXEL_INSIDE.
Proof.
  split; [exact fair_sequential|].
  eexists. split; [vm_compute; reflexivity|].
  assert (Hadj : face_adjacent (2, 2, 2) 3 7).
  { unfold face_adjacent. simpl. lia. }
  split; [exact Hadj|]. split; [reflexivity|].
  apply (outside_never_touches_inside
           (λ _ : unit, unit_cube) (λ _, one_triangle) hit_beyond_first_layer
           sequential () 2 _ 3 7 fair_sequential).
  - vm_compute. reflexivity.
  - exact Hadj.
  - reflexivity.
Defined.

(** Every voxel but voxel 0 meets the surface: the seed is 0. *)
Lemma skipped_flood_leaves_no_outside_witness :
  fair sequential ∧
  ∃ g1 fs,
    classify_mesh (λ _ : unit, unit_cube) (λ _, one_triangle)
      hit_away_from_origin sequential () 2 = Some (g1, fs) ∧
    ¬ (fs > 0)%Z ∧ (fs = (-1)%Z ∨ fs = 0%Z).
Proof.
  split; [exact fair_sequential|].
  eexists _, _. split; [vm_compute; reflexivity|]. split; [done|].
  refine (proj1 (skipped_flood_leaves_no_outside
                   (λ _ : unit, unit_cube) (λ _, one_triangle) hit_away_from_origin
                   sequential () 2 _ _ fair_sequential _ _)).
  - vm_compute. reflexivity.
  - done.
Defined.

(** The seeds 3 and 1 of the two schedules are face neighbours. *)
Lemma seed_race_is_harmless_in_one_region_witness :
  fair sequential ∧ fair descending ∧
  ∃ g1 fs1 g2 fs2,
    classify_mesh (λ _ : unit, unit_cube) (λ _, one_triangle)
      hit_beyond_first_layer sequential () 2 = Some (g1, fs1) ∧
    classify_mesh (λ _ : unit, unit_cube) (λ _, one_triangle)
      hit_beyond_first_layer descending () 2 = Some (g2, fs2) ∧
    (fs1 > 0)%Z ∧ (fs2 > 0)%Z ∧ fs1 ≠ fs2 ∧
    reachable g1 (Z.to_nat fs1) (Z.to_nat fs2) ∧
    voxelize_mesh (λ _ : unit, unit_cube) (λ _, one_triangle)
      hit_beyond_first_layer sequential () 2 =
    voxelize_mesh (λ _ : unit, unit_cube) (λ _, one_triangle)
      hit_beyond_first_layer descending () 2.
Proof.
  split; [exact fair_sequential|]. split; [exact fair_descending|].
  eexists _, _, _, _.
  split; [vm_compute; reflexivity|]. split; [vm_compute; reflexivity|].
  split; [reflexivity|]. split; [reflexivity|]. split; [done|].
  match goal with |- reachable ?g ?a ?b ∧ _ => assert (Hreach : reachable g a b) end.
  { apply rtc_once. split; [|done]. unfold face_adjacent. simpl. lia. }
  split; [exact Hreach|].
  apply (seed_race_is_harmless_in_one_region
           (λ _ : unit, unit_cube) (λ _, one_triangle) hit_beyond_first_layer
           sequential descending () 2 _ _ _ _ fair_sequential fair_descending
           ltac:(vm_compute; reflexivity) ltac:(vm_compute; reflexivity)
           ltac:(reflexivity) ltac:(reflexivity) Hreach).
Defined.

Lemma sequential_seed_is_the_last_candidate_witness :
  ∃ g1 fs,
    classify_mesh (λ _ : unit, unit_cube) (λ _, one_triangle)
      hit_beyond_first_layer sequential () 2 = Some (g1, fs) ∧
    ((fs > 0)%Z ↔
     ∃ i, 0 < i < grid_size (dim g1) ∧
          seed_candidate hit_beyond_first_layer one_triangle g1 i = true).
Proof.
  eexists _, _. split; [vm_compute; reflexivity|].
  exact (proj2 (sequential_seed_is_the_last_candidate
                  (λ _ : unit, unit_cube) (λ _, one_triangle) hit_beyond_first_layer
                  () 2 _ _ ltac:(vm_compute; reflexivity))).
Defined.

Lemma flood_queues_each_outside_voxel_once_witness :
  fair sequential ∧
  ∃ g1 fs,
    classify_mesh (λ _ : unit, unit_cube) (λ _, one_triangle)
      hit_beyond_first_layer sequential () 2 = Some (g1, fs) ∧
    (fs > 0)%Z ∧
    ∃ s, flood_run g1 (Z.to_nat fs) s ∧
         length (fs_pushed s) + unknowns (voxels (fs_grid s)) = unknowns (voxels g1).
Proof.
  split; [exact fair_sequential|].
  eexists _, _. split; [vm_compute; reflexivity|]. split; [reflexivity|].
  destruct (flood_queues_each_outside_voxel_once
              (λ _ : unit, unit_cube) (λ _, one_triangle) hit_beyond_first_layer
              sequential () 2 _ _ fair_sequential
              ltac:(vm_compute; reflexivity) ltac:(reflexivity))
    as (s & _ & Hrun & _ & _ & _ & _ & Hcount & _).
  exists s. split; [exact Hrun | exact Hcount].
Defined.

Lemma recorded_seed_is_on_a_min_face_witness :
  fair descending ∧
  ∃ g1 fs,
    classify_mesh (λ _ : unit, unit_cube) (λ _, one_triangle)
      hit_beyond_first_layer descending () 2 = Some (g1, fs) ∧
    fs ≠ (-1)%Z ∧
    ∃ i, fs = Z.of_nat i ∧ i < grid_size (dim g1) ∧
         voxels g1 !! i = Some VOXEL_UNKNOWN.
Proof.
  split; [exact fair_descending|].
  eexists _, _. split; [vm_compute; reflexivity|]. split; [done|].
  destruct (proj2 (recorded_seed_is_on_a_min_face
                     (λ _ : unit, unit_cube) (λ _, one_triangle) hit_beyond_first_layer
                     descending () 2 _ _ fair_descending
                     ltac:(vm_compute; reflexivity)) ltac:(done))
    as (i & Hfs & Hi & Hu & _).
  exists i. split; [exact Hfs|]. split; [exact Hi | exact Hu].
Defined.

Lemma function_variant_ignores_schedule_witness :
  fair sequential ∧ fair descending ∧
  voxelize_function plane sequential unit_cube 2 =
  voxelize_function plane descending unit_cube 2.
Proof.
  split; [exact fair_sequential|]. split; [exact fair_descending|].
  apply (function_variant_ignores_schedule plane sequential descending unit_cube 2
           fair_sequential fair_descending).
Defined.

Lemma negated_function_swaps_inside_and_outside_witness :
  fair sequential ∧
  ∃ g, voxelize_function plane sequential unit_cube 2 = Done g ∧
       voxelize_function (λ p, fneg (plane p)) sequential unit_cube 2 =
         Done {| bbox := bbox g; len := len g; dim := dim g;
                 voxels := swap_tag <$> voxels g |}.
Proof.
  split; [exact fair_sequential|].
  eexists. split; [vm_compute; reflexivity|].
  apply (negated_function_swaps_inside_and_outside plane sequential unit_cube 2 _
           fair_sequential).
  vm_compute. reflexivity.
Defined.

(** The unit square in the plane [z = 0] at resolution 4: the grid has
    4 x 4 x 0 voxels. *)
Lemma flat_box_has_no_voxels_witness :
  fair sequential ∧
  ∃ g0, grid_geometry flat_box 4 = Some g0 ∧
    (∃ s, delta_x flat_box = S754_zero s ∨ delta_y flat_box = S754_zero s ∨
          delta_z flat_box = S754_zero s) ∧
    dim g0 = (4, 4, 0) ∧ grid_size (dim g0) = 0.
Proof.
  split; [exact fair_sequential|].
  eexists. split; [vm_compute; reflexivity|].
  assert (Hflat : ∃ s, delta_x flat_box = S754_zero s ∨ delta_y flat_box = S754_zero s ∨
                       delta_z flat_box = S754_zero s).
  { exists false. right. right. reflexivity. }
  split; [exact Hflat|]. split; [reflexivity|].
  refine (proj1 (flat_box_has_no_voxels
                   (λ _ : unit, flat_box) (λ _, one_triangle) hit_beyond_first_layer
                   plane sequential fair_sequential () 4 _ _ Hflat)).
  vm_compute. reflexivity.
Defined.


